(** * OMP_Lab2, task 3: the writer-preference reader-writer lock
      (my_rwlock.c) and the sorted-list workload harness
      (test_pthread_rwlock.c), embedded and verified. *)

From Stdlib Require Import ZArith Bool Lia String.
From Stdlib Require Import Floats.SpecFloat.
From stdpp Require Import base option list gmap.

Open Scope Z_scope.

(** ** C [int] arithmetic *)

Definition INT_MAX : Z := 2147483647.
Definition INT_MIN : Z := -2147483648.

(** Two's complement reduction of a mathematical integer to a 32-bit [int]. *)
Definition int_wrap (z : Z) : Z := (z + 2147483648) mod 4294967296 - 2147483648.

(** [x++] and [x--] on an [int]. *)
Definition int_incr (x : Z) : Z := int_wrap (x + 1).
Definition int_decr (x : Z) : Z := int_wrap (x - 1).
Definition int_add (x y : Z) : Z := int_wrap (x + y).

Definition in_int (z : Z) : Prop := INT_MIN <= z <= INT_MAX.

(** [errno.h]: the value of EINVAL on Linux. *)
Definition EINVAL : Z := 22.

(** ** The lock object *)

(** Modelled from the spec: my_rwlock.h is not part of the source tree.  The
    spec's data model gives the four fields; the three counters are taken as
    [int] (the code applies [++], [--], [> 0] and [== 0] to them) and the flag,
    which the code only sets to 0 or 1 and tests for truth, as a boolean.  The
    mutex and the two condition variables are opaque platform objects, named
    by the primitives that act on them. *)
Record my_rwlock_t : Type := Rwlock {
  active_readers : Z;
  waiting_readers : Z;
  waiting_writers : Z;
  writer_active : bool
}.

Definition upd_active_readers (f : Z -> Z) (l : my_rwlock_t) : my_rwlock_t :=
  Rwlock (f (active_readers l)) (waiting_readers l) (waiting_writers l) (writer_active l).
Definition upd_waiting_readers (f : Z -> Z) (l : my_rwlock_t) : my_rwlock_t :=
  Rwlock (active_readers l) (f (waiting_readers l)) (waiting_writers l) (writer_active l).
Definition upd_waiting_writers (f : Z -> Z) (l : my_rwlock_t) : my_rwlock_t :=
  Rwlock (active_readers l) (waiting_readers l) (f (waiting_writers l)) (writer_active l).
Definition set_writer_active (b : bool) (l : my_rwlock_t) : my_rwlock_t :=
  Rwlock (active_readers l) (waiting_readers l) (waiting_writers l) b.

(** The fields as [my_rwlock_init] leaves them. *)
Definition fresh_lock : my_rwlock_t := Rwlock 0 0 0 false.

(** ** The platform: pthread primitives *)

Inductive condvar : Type := readers_cv | writers_cv.

Inductive prim : Type :=
| pthread_mutex_init
| pthread_mutex_destroy
| pthread_mutex_lock
| pthread_mutex_unlock
| pthread_cond_init (cv : condvar)
| pthread_cond_destroy (cv : condvar)
| pthread_cond_wait (cv : condvar)
| pthread_cond_signal (cv : condvar)
| pthread_cond_broadcast (cv : condvar).

(** What the platform does to one caller: the code each primitive call reports
    (the [k]-th call of the run, counted from 0), and the fields as the other
    threads left them when a condition wait, which releases the mutex, comes
    back. *)
Record platform : Type := Platform {
  reports : nat -> prim -> Z;
  meanwhile : nat -> my_rwlock_t -> my_rwlock_t
}.

(** The caller's view: the lock object behind the handle and the primitive
    calls made so far, each with the code it reported, oldest first. *)
Record world : Type := World {
  obj : my_rwlock_t;
  trace : list (prim * Z)
}.

(** A lock handle: the null pointer or the address of the world's lock. *)
Inductive handle : Type := NULL | ADDR.

(** State monad over the caller's view, reading the platform. *)
Definition M (A : Type) : Type := platform -> world -> A * world.

Definition ret {A : Type} (a : A) : M A := fun _ w => (a, w).
Definition bind {A B : Type} (c : M A) (k : A -> M B) : M B :=
  fun P w => let (a, w') := c P w in k a P w'.

Declare Scope rw_scope.
Delimit Scope rw_scope with rw.
Notation "x <- c ;; k" := (bind c (fun x => k))
  (at level 20, c at level 99, k at level 200, only parsing) : rw_scope.
Notation "c ;; k" := (bind c (fun _ => k))
  (at level 100, k at level 200, only parsing, right associativity) : rw_scope.
Open Scope rw_scope.

Definition field {A : Type} (f : my_rwlock_t -> A) : M A := fun _ w => (f (obj w), w).
Definition modify (f : my_rwlock_t -> my_rwlock_t) : M unit :=
  fun _ w => (tt, World (f (obj w)) (trace w)).

Definition is_wait (p : prim) : bool :=
  match p with pthread_cond_wait _ => true | _ => false end.

(** One primitive call: it reports a code, and a condition wait exposes the
    fields to the other threads. *)
Definition call (p : prim) : M Z := fun P w =>
  let k := length (trace w) in
  let rc := reports P k p in
  (rc, World (if is_wait p then meanwhile P k (obj w) else obj w) (trace w ++ [(p, rc)])).

(** ** my_rwlock.c *)

Definition my_rwlock_init (rwlock : handle) : M Z :=
  match rwlock with
  | NULL => ret EINVAL
  | ADDR =>
      rc <- call pthread_mutex_init ;;
      if negb (rc =? 0) then ret rc else
      rc <- call (pthread_cond_init readers_cv) ;;
      if negb (rc =? 0) then
        call pthread_mutex_destroy ;;
        ret rc
      else
      rc <- call (pthread_cond_init writers_cv) ;;
      if negb (rc =? 0) then
        call (pthread_cond_destroy readers_cv) ;;
        call pthread_mutex_destroy ;;
        ret rc
      else
      modify (upd_active_readers (fun _ => 0)) ;;
      modify (upd_waiting_readers (fun _ => 0)) ;;
      modify (upd_waiting_writers (fun _ => 0)) ;;
      modify (set_writer_active false) ;;
      ret 0
  end.

Definition my_rwlock_destroy (rwlock : handle) : M Z :=
  match rwlock with
  | NULL => ret EINVAL
  | ADDR =>
      rc <- call pthread_mutex_destroy ;;
      if negb (rc =? 0) then ret rc else
      rc <- call (pthread_cond_destroy readers_cv) ;;
      if negb (rc =? 0) then ret rc else
      rc <- call (pthread_cond_destroy writers_cv) ;;
      if negb (rc =? 0) then ret rc else
      ret 0
  end.

(** The two loop conditions. *)
Definition rd_blocked (l : my_rwlock_t) : bool :=
  writer_active l || (0 <? waiting_writers l).
Definition wr_blocked (l : my_rwlock_t) : bool :=
  (0 <? active_readers l) || writer_active l.

(** [while (cond) pthread_cond_wait(cv, mutex);] with [wakeups] returns of the
    wait available to the caller.  [true]: the loop was left; [false]: the
    caller is parked in a wait that has not returned. *)
Fixpoint wait_while (cond : my_rwlock_t -> bool) (cv : condvar) (wakeups : nat) : M bool :=
  b <- field cond ;;
  if b then
    match wakeups with
    | O => ret false
    | S k => call (pthread_cond_wait cv) ;; wait_while cond cv k
    end
  else ret true.

(** [None]: still blocked inside the call. *)
Definition my_rwlock_rdlock (rwlock : handle) (wakeups : nat) : M (option Z) :=
  match rwlock with
  | NULL => ret (Some EINVAL)
  | ADDR =>
      call pthread_mutex_lock ;;
      modify (upd_waiting_readers int_incr) ;;
      left_loop <- wait_while rd_blocked readers_cv wakeups ;;
      if left_loop then
        modify (upd_waiting_readers int_decr) ;;
        modify (upd_active_readers int_incr) ;;
        call pthread_mutex_unlock ;;
        ret (Some 0)
      else ret None
  end.

Definition my_rwlock_wrlock (rwlock : handle) (wakeups : nat) : M (option Z) :=
  match rwlock with
  | NULL => ret (Some EINVAL)
  | ADDR =>
      call pthread_mutex_lock ;;
      modify (upd_waiting_writers int_incr) ;;
      left_loop <- wait_while wr_blocked writers_cv wakeups ;;
      if left_loop then
        modify (upd_waiting_writers int_decr) ;;
        modify (set_writer_active true) ;;
        call pthread_mutex_unlock ;;
        ret (Some 0)
      else ret None
  end.

(** The wake-up block that both branches of [my_rwlock_unlock] contain. *)
Definition wake_next : M unit :=
  ww <- field waiting_writers ;;
  if 0 <? ww then
    call (pthread_cond_signal writers_cv) ;; ret tt
  else
    wr <- field waiting_readers ;;
    if 0 <? wr then
      call (pthread_cond_broadcast readers_cv) ;; ret tt
    else ret tt.

Definition my_rwlock_unlock (rwlock : handle) : M Z :=
  match rwlock with
  | NULL => ret EINVAL
  | ADDR =>
      call pthread_mutex_lock ;;
      wa <- field writer_active ;;
      (if wa then
         modify (set_writer_active false) ;;
         wake_next
       else
         modify (upd_active_readers int_decr) ;;
         ar <- field active_readers ;;
         if ar =? 0 then wake_next else ret tt) ;;
      call pthread_mutex_unlock ;;
      ret 0
  end.

(** Running one call from the caller's first primitive on: the value returned,
    the fields afterwards, and the primitives called. *)
Definition run {A : Type} (c : M A) (P : platform) (l : my_rwlock_t)
  : A * my_rwlock_t * list prim :=
  let (a, w) := c P (World l []) in (a, obj w, map fst (trace w)).

Definition is_wake (p : prim) : bool :=
  match p with
  | pthread_cond_signal _ | pthread_cond_broadcast _ => true
  | _ => false
  end.

(** The wake-ups among the primitives of a call. *)
Definition wakes (ps : list prim) : list prim := filter (fun p => is_wake p = true) ps.

(** The wake policy in the spec's words, read on the fields after the
    holder's role is cleared: one writer signalled if writers wait, else all
    readers by broadcast if readers wait, else nothing. *)
Definition wake_policy (l : my_rwlock_t) : list prim :=
  if 0 <? waiting_writers l then [pthread_cond_signal writers_cv]
  else if 0 <? waiting_readers l then [pthread_cond_broadcast readers_cv]
  else [].

(** A platform on which every primitive succeeds and nothing interferes. *)
Definition quiet : platform := Platform (fun _ _ => 0) (fun _ l => l).

(** A platform on which every primitive reports EINVAL. *)
Definition broken : platform := Platform (fun _ _ => EINVAL) (fun _ l => l).

(** ** The field updates of each mutex-protected stretch *)

Definition rdlock_enter (l : my_rwlock_t) : my_rwlock_t := upd_waiting_readers int_incr l.
Definition rdlock_admit (l : my_rwlock_t) : my_rwlock_t :=
  upd_active_readers int_incr (upd_waiting_readers int_decr l).
Definition wrlock_enter (l : my_rwlock_t) : my_rwlock_t := upd_waiting_writers int_incr l.
Definition wrlock_admit (l : my_rwlock_t) : my_rwlock_t :=
  set_writer_active true (upd_waiting_writers int_decr l).
Definition unlock_fields (l : my_rwlock_t) : my_rwlock_t :=
  if writer_active l then set_writer_active false l else upd_active_readers int_decr l.

(** ** Threads and interleavings *)

(** Where a thread stands with respect to the lock. *)
Inductive tstate : Type := Idle | ParkedR | Reading | ParkedW | Writing.

#[global] Instance tstate_eq_dec : EqDecision tstate.
Proof. solve_decision. Defined.

(** What a thread does next: enter one of the three calls, or come back from
    the condition wait it is parked in (signalled, broadcast or spurious). *)
Inductive request : Type := Rdlock | Wrlock | Wakeup | Unlock.

(** One stretch of code run with the mutex held, from the thread's state and
    the fields it finds to the state and fields it leaves.  The calling
    discipline is that of [Thread_work]: a thread asks for the lock when it
    holds nothing, and releases what it holds. *)
Definition segment (r : request) (st : tstate) (l : my_rwlock_t)
  : option (tstate * my_rwlock_t) :=
  match r, st with
  | Rdlock, Idle =>
      let l1 := rdlock_enter l in
      Some (if rd_blocked l1 then (ParkedR, l1) else (Reading, rdlock_admit l1))
  | Wakeup, ParkedR =>
      Some (if rd_blocked l then (ParkedR, l) else (Reading, rdlock_admit l))
  | Wrlock, Idle =>
      let l1 := wrlock_enter l in
      Some (if wr_blocked l1 then (ParkedW, l1) else (Writing, wrlock_admit l1))
  | Wakeup, ParkedW =>
      Some (if wr_blocked l then (ParkedW, l) else (Writing, wrlock_admit l))
  | Unlock, Reading | Unlock, Writing => Some (Idle, unlock_fields l)
  | _, _ => None
  end.

(** The lock seen alone: any stretch of any call may run next, whoever the
    caller is and whatever it holds. *)
Definition lock_step (l l' : my_rwlock_t) : Prop :=
  exists r st st', segment r st l = Some (st', l').

Inductive lock_reachable : my_rwlock_t -> Prop :=
| reach_fresh : lock_reachable fresh_lock
| reach_step l l' : lock_reachable l -> lock_step l l' -> lock_reachable l'.

(** The lock together with the threads that use it. *)
Record system : Type := System {
  lk : my_rwlock_t;
  pool : list tstate
}.

Definition boot (n : nat) : system := System fresh_lock (replicate n Idle).

(** Thread [t] runs its next stretch. *)
Definition fire (t : nat) (r : request) (s : system) : option system :=
  match pool s !! t with
  | None => None
  | Some st =>
      match segment r st (lk s) with
      | None => None
      | Some (st', l') => Some (System l' (<[t := st']> (pool s)))
      end
  end.

Fixpoint play (sched : list (nat * request)) (s : system) : option system :=
  match sched with
  | [] => Some s
  | (t, r) :: rest =>
      match fire t r s with
      | None => None
      | Some s' => play rest s'
      end
  end.

Definition reachable (n : nat) (s : system) : Prop :=
  exists sched, play sched (boot n) = Some s.

(** Number of threads of the pool in state [st]. *)
Fixpoint census (st : tstate) (ts : list tstate) : Z :=
  match ts with
  | [] => 0
  | x :: rest => (if decide (x = st) then 1 else 0) + census st rest
  end.

(** ** Invariants *)

(** No writer next to an active reader. *)
Definition exclusive (l : my_rwlock_t) : Prop :=
  ~ (writer_active l = true /\ 0 < active_readers l).

(** The fields count the threads: with [n] threads that follow the calling
    discipline, each counter is the number of threads in the matching state
    and the flag is up exactly when one thread writes. *)
Record accounted (n : nat) (s : system) : Prop := Accounted {
  acc_len : length (pool s) = n;
  acc_ar : active_readers (lk s) = census Reading (pool s);
  acc_wr : waiting_readers (lk s) = census ParkedR (pool s);
  acc_ww : waiting_writers (lk s) = census ParkedW (pool s);
  acc_wa : (if writer_active (lk s) then 1 else 0) = census Writing (pool s);
  acc_ex : writer_active (lk s) = true -> census Reading (pool s) = 0
}.

(** ** test_pthread_rwlock.c: the sorted list *)

Definition MAX_KEY : Z := 100000000.

(** The list is the sequence of keys from [head] on.  Each function returns
    its [rv] and the list it leaves; [malloc] is taken to return a node. *)
Fixpoint Insert (value : Z) (head : list Z) : Z * list Z :=
  match head with
  | [] => (1, [value])
  | data :: next =>
      if data <? value then
        let (rv, next') := Insert value next in (rv, data :: next')
      else if data >? value then (1, value :: data :: next)
      else (0, data :: next)
  end.

Fixpoint Member (value : Z) (head : list Z) : Z :=
  match head with
  | [] => 0
  | data :: next =>
      if data <? value then Member value next
      else if data >? value then 0
      else 1
  end.

Fixpoint Delete (value : Z) (head : list Z) : Z * list Z :=
  match head with
  | [] => (0, [])
  | data :: next =>
      if data <? value then
        let (rv, next') := Delete value next in (rv, data :: next')
      else if data =? value then (1, next)
      else (0, data :: next)
  end.

(** Strictly ascending keys. *)
Fixpoint ascending (head : list Z) : bool :=
  match head with
  | [] => true
  | a :: rest =>
      match rest with
      | [] => true
      | b :: _ => (a <? b) && ascending rest
      end
  end.

(** [x] is below the first key, if there is one. *)
Definition below (x : Z) (head : list Z) : Prop :=
  match head with
  | [] => True
  | y :: _ => x < y
  end.

Inductive list_op : Type := Op_Insert (value : Z) | Op_Delete (value : Z).

Definition apply_op (o : list_op) (head : list Z) : list Z :=
  match o with
  | Op_Insert v => snd (Insert v head)
  | Op_Delete v => snd (Delete v head)
  end.

(** The lists left by each operation of a sequence, in order. *)
Fixpoint lists_after (ops : list list_op) (head : list Z) : list (list Z) :=
  match ops with
  | [] => []
  | o :: rest => apply_op o head :: lists_after rest (apply_op o head)
  end.

(** ** test_pthread_rwlock.c: the workload *)

(** C [double]: IEEE 754 binary64. *)
Definition double : Type := spec_float.
Definition dlt (x y : double) : bool := SFltb x y.
Definition dle (x y : double) : bool := SFleb x y.
Definition dadd (x y : double) : double := SFadd 53 1024 x y.
Definition dsub (x y : double) : double := SFsub 53 1024 x y.
Definition double_one : double := S754_finite false 4503599627370496 (-52).

(** Modelled from the spec: my_rand.h and its implementation are not part of
    the source tree.  Each draw reads the caller's own [unsigned] seed and
    advances it: [my_rand] yields an unsigned value, [my_drand] a selector. *)
Class RandomStreams : Type := {
  my_rand : Z -> Z * Z;
  my_drand : Z -> double * Z
}.

(** The globals set before the threads start. *)
Record settings : Type := Settings {
  thread_count : Z;
  total_ops : Z;
  search_percent : double;
  insert_percent : double;
  delete_percent : double
}.

(** The globals the threads share. *)
Record shared : Type := Shared {
  head : list Z;
  member_count : Z;
  insert_count : Z;
  delete_count : Z
}.

(** The locals of [Thread_work]. *)
Record worker : Type := Worker {
  seed : Z;
  i : Z;
  my_member_count : Z;
  my_insert_count : Z;
  my_delete_count : Z
}.

(** What a thread does to the shared objects, in order. *)
Inductive action : Type :=
| pthread_rwlock_rdlock
| pthread_rwlock_wrlock
| pthread_rwlock_unlock
| call_Member (value : Z)
| call_Insert (value : Z)
| call_Delete (value : Z)
| lock_count_mutex
| unlock_count_mutex.

Definition ops_per_thread (cfg : settings) : Z := Z.quot (total_ops cfg) (thread_count cfg).

Definition unsigned_wrap (z : Z) : Z := z mod 4294967296.

Definition Thread_entry (my_rank : Z) : worker :=
  Worker (unsigned_wrap (my_rank + 1)) 0 0 0 0.

Section Workload.
Context {streams : RandomStreams}.

(** One pass through the body of the [for] loop, [i++] included.  The draws
    and the counters are the thread's own; the list operation runs between
    the lock and unlock calls around it, so a writing pass sees the list as
    another pass left it, and searches, which may overlap one another, leave
    it as it is. *)
Definition loop_body (cfg : settings) (w : worker) (hd : list Z)
  : worker * list Z * list action :=
  let (which_op, s1) := my_drand (seed w) in
  let (r, s2) := my_rand s1 in
  let val := r mod MAX_KEY in
  if dlt which_op (search_percent cfg) then
    (Worker s2 (int_incr (i w)) (int_incr (my_member_count w))
       (my_insert_count w) (my_delete_count w),
     hd,
     [pthread_rwlock_rdlock; call_Member val; pthread_rwlock_unlock])
  else if dlt which_op (dadd (search_percent cfg) (insert_percent cfg)) then
    (Worker s2 (int_incr (i w)) (my_member_count w)
       (int_incr (my_insert_count w)) (my_delete_count w),
     snd (Insert val hd),
     [pthread_rwlock_wrlock; call_Insert val; pthread_rwlock_unlock])
  else
    (Worker s2 (int_incr (i w)) (my_member_count w)
       (my_insert_count w) (int_incr (my_delete_count w)),
     snd (Delete val hd),
     [pthread_rwlock_wrlock; call_Delete val; pthread_rwlock_unlock]).

(** The additions made under [count_mutex]. *)
Definition merge (w : worker) (sh : shared) : shared :=
  Shared (head sh)
    (int_add (member_count sh) (my_member_count w))
    (int_add (insert_count sh) (my_insert_count w))
    (int_add (delete_count sh) (my_delete_count w)).

(** A thread is inside [Thread_work] or has returned from it. *)
Inductive thread : Type := Working (w : worker) | Returned.

(** The next stretch of a thread inside [Thread_work]: one pass of the loop
    while [i < ops_per_thread], then the merge and the return. *)
Definition Thread_work_stretch (cfg : settings) (w : worker) (sh : shared)
  : thread * shared * list action :=
  if i w <? ops_per_thread cfg then
    let '(w', hd', acts) := loop_body cfg w (head sh) in
    (Working w', Shared hd' (member_count sh) (insert_count sh) (delete_count sh), acts)
  else
    (Returned, merge w sh, [lock_count_mutex; unlock_count_mutex]).

(** The shared globals and the threads of the run. *)
Record harness : Type := Harness {
  globals : shared;
  threads : list thread
}.

(** Thread [t] runs its next stretch; a thread that has returned, or does
    not exist, does nothing. *)
Definition advance (cfg : settings) (t : nat) (h : harness) : harness :=
  match threads h !! t with
  | Some (Working w) =>
      let '(th', sh', _) := Thread_work_stretch cfg w (globals h) in
      Harness sh' (<[t := th']> (threads h))
  | _ => h
  end.

Definition execute (cfg : settings) (sched : list nat) (h : harness) : harness :=
  fold_left (fun h t => advance cfg t h) sched h.

(** The threads as [pthread_create] starts them, rank 0 first. *)
Definition spawn (cfg : settings) : list thread :=
  map (fun rank => Working (Thread_entry (Z.of_nat rank)))
      (seq 0 (Z.to_nat (thread_count cfg))).

Definition all_returned (h : harness) : bool :=
  forallb (fun th => match th with Returned => true | Working _ => false end) (threads h).

(** A schedule that lets each thread in turn run to its return. *)
Definition one_by_one (cfg : settings) : list nat :=
  flat_map (fun t => replicate (S (Z.to_nat (ops_per_thread cfg))) t)
           (seq 0 (Z.to_nat (thread_count cfg))).

(** The filling loop of [main]:
    [while (i < inserts_in_main && attempts < 2 * inserts_in_main)]. *)
Fixpoint fill (fuel : nat) (inserts_in_main : Z) (st : Z * Z * Z * list Z)
  : Z * Z * Z * list Z :=
  let '(i, attempts, seed, hd) := st in
  match fuel with
  | O => st
  | S fuel' =>
      if (i <? inserts_in_main) && (attempts <? int_wrap (2 * inserts_in_main)) then
        let (r, seed') := my_rand seed in
        let key := r mod MAX_KEY in
        let (success, hd') := Insert key hd in
        fill fuel' inserts_in_main
          (if success =? 0 then i else i + 1, int_incr attempts, seed', hd')
      else st
  end.

End Workload.

(** ** test_pthread_rwlock.c: the process *)

(** The four numbers [Get_input] reads from standard input. *)
Record stdin : Type := Stdin {
  read_inserts : Z;
  read_total_ops : Z;
  read_search_percent : double;
  read_insert_percent : double
}.

(** A line written by the process: fixed text, or a label with its number.
    The elapsed time is a wall-clock reading and is not given a value. *)
Inductive line : Type :=
| Text (s : string)
| Inserted_keys (n : Z)
| Elapsed_time
| Total_ops (n : Z)
| Member_ops (n : Z)
| Insert_ops (n : Z)
| Delete_ops (n : Z).

(** How a run of the process ends: it terminates with a status, having
    written to the error stream and to standard output; or it writes through
    the null pointer an unchecked [malloc] gave it; or it sits in
    [pthread_join] because the schedule has not let every thread return. *)
Inductive outcome : Type :=
| Exit (status : Z) (stderr : list string) (stdout : list line)
| Null_dereference (stdout : list line)
| Joining (stdout : list line).

Definition newline : string := String (Ascii.ascii_of_nat 10) EmptyString.

Definition usage_message (prog_name : string) : string :=
  ("usage: " ++ prog_name ++ " <thread_count>" ++ newline)%string.

(** [Usage] writes to the error stream and calls [exit(0)]. *)
Definition Usage (prog_name : string) : outcome :=
  Exit 0 [usage_message prog_name] [].

Definition prompts : list line :=
  [Text "How many keys should be inserted in the main thread?";
   Text "How many ops total should be executed?";
   Text "Percent of ops that should be searches? (between 0 and 1)";
   Text "Percent of ops that should be inserts? (between 0 and 1)"].

(** [Get_input]: the value stored through its pointer argument and the
    globals it sets. *)
Definition Get_input (threads_arg : Z) (input : stdin) : Z * settings :=
  (read_inserts input,
   Settings threads_arg (read_total_ops input)
     (read_search_percent input) (read_insert_percent input)
     (dsub double_one (dadd (read_search_percent input) (read_insert_percent input)))).

Section Process.
Context {streams : RandomStreams}.

(** [main], given [argc], [argv[0]], what [strtol] makes of [argv[1]], the
    numbers on standard input, whether [malloc] returned memory for the thread
    handles, and the order in which the threads get to run. *)
Definition main (argc : Z) (prog_name : string) (strtol_arg : Z) (input : stdin)
    (handles_allocated : bool) (sched : list nat) : outcome :=
  if negb (argc =? 2) then Usage prog_name
  else
    let (inserts_in_main, cfg) := Get_input (int_wrap strtol_arg) input in
    let '(filled, _, _, hd) :=
      fill (Z.to_nat (int_wrap (2 * inserts_in_main))) inserts_in_main (0, 0, 1, []) in
    let out := prompts ++ [Inserted_keys filled] in
    if (0 <? thread_count cfg) && negb handles_allocated then Null_dereference out
    else
      let h := execute cfg sched (Harness (Shared hd 0 0 0) (spawn cfg)) in
      if all_returned h then
        Exit 0 []
          (out ++ [Elapsed_time;
                   Total_ops (total_ops cfg);
                   Member_ops (member_count (globals h));
                   Insert_ops (insert_count (globals h));
                   Delete_ops (delete_count (globals h))])
      else Joining out.

End Process.

(** A generator of the kind the harness links against: a multiplicative
    congruential stream, and its value scaled into [0, 1). *)
Definition of_unsigned (z : Z) : double := binary_normalize 53 1024 z 0 false.

Definition sample_rand (s : Z) : Z * Z :=
  let z := (s * 279470273) mod 4294967291 in (z, z).

Definition sample_drand (s : Z) : double * Z :=
  let (x, s') := sample_rand s in
  (SFdiv 53 1024 (of_unsigned x) (of_unsigned 4294967291), s').

Definition sample_streams : RandomStreams := Build_RandomStreams sample_rand sample_drand.

(** 0.5, 0.25 and 0.75 as [double]s. *)
Definition half : double := S754_finite false 4503599627370496 (-53).
Definition quarter : double := S754_finite false 4503599627370496 (-54).
Definition three_quarters : double := S754_finite false 6755399441055744 (-53).

(** ** Invariants of the workload *)

(** Number of threads that have returned. *)
Fixpoint returned (ths : list thread) : Z :=
  match ths with
  | [] => 0
  | Returned :: rest => 1 + returned rest
  | Working _ :: rest => returned rest
  end.

(** Inside the loop a thread's three counters add up to its [i]. *)
Definition thread_ok (cfg : settings) (th : thread) : Prop :=
  match th with
  | Returned => True
  | Working w =>
      0 <= i w <= ops_per_thread cfg /\
      0 <= my_member_count w /\ 0 <= my_insert_count w /\ 0 <= my_delete_count w /\
      my_member_count w + my_insert_count w + my_delete_count w = i w
  end.

(** The shared totals hold [ops_per_thread] operations for each thread that
    has returned. *)
Record tallied (cfg : settings) (h : harness) : Prop := Tallied {
  tal_threads : Forall (thread_ok cfg) (threads h);
  tal_len : Z.of_nat (length (threads h)) = thread_count cfg;
  tal_member : 0 <= member_count (globals h);
  tal_insert : 0 <= insert_count (globals h);
  tal_delete : 0 <= delete_count (globals h);
  tal_sum : member_count (globals h) + insert_count (globals h) + delete_count (globals h)
            = ops_per_thread cfg * returned (threads h)
}.

(** ** Platform objects *)

(** The three objects a lock owns. *)
Inductive object : Type := the_mutex | the_condvar (cv : condvar).

Definition condvar_eqb (a b : condvar) : bool :=
  match a, b with
  | readers_cv, readers_cv | writers_cv, writers_cv => true
  | _, _ => false
  end.

Definition creates (p : prim) (o : object) : bool :=
  match p, o with
  | pthread_mutex_init, the_mutex => true
  | pthread_cond_init a, the_condvar b => condvar_eqb a b
  | _, _ => false
  end.

Definition disposes (p : prim) (o : object) : bool :=
  match p, o with
  | pthread_mutex_destroy, the_mutex => true
  | pthread_cond_destroy a, the_condvar b => condvar_eqb a b
  | _, _ => false
  end.

(** The primitive calls of one call, each with the code it reported. *)
Definition calls {A : Type} (c : M A) (P : platform) (l : my_rwlock_t) : list (prim * Z) :=
  trace (snd (c P (World l []))).

(** Initialisations of [o] that reported success, minus the calls made to
    destroy [o]. *)
Fixpoint balance (o : object) (tr : list (prim * Z)) : Z :=
  match tr with
  | [] => 0
  | (p, rc) :: rest =>
      (if creates p o && (rc =? 0) then 1 else 0) - (if disposes p o then 1 else 0)
      + balance o rest
  end.

(** The destructions [my_rwlock_destroy] attempts, in its order. *)
Definition teardown : list prim :=
  [pthread_mutex_destroy; pthread_cond_destroy readers_cv; pthread_cond_destroy writers_cv].

(** ** Condition variables with wake-ups delivered *)

(** Where a thread stands when sleeping in a condition wait is told apart
    from having been woken and not yet run. *)
Inductive wstate : Type :=
| Out
| AsleepR | AwakeR | InR
| AsleepW | AwakeW | InW.

#[global] Instance wstate_eq_dec : EqDecision wstate.
Proof. solve_decision. Defined.

Definition asleep_on (cv : condvar) : wstate :=
  match cv with readers_cv => AsleepR | writers_cv => AsleepW end.
Definition awake_from (cv : condvar) : wstate :=
  match cv with readers_cv => AwakeR | writers_cv => AwakeW end.

(** Number of threads in state [st]. *)
Fixpoint tally (st : wstate) (ts : list wstate) : Z :=
  match ts with
  | [] => 0
  | x :: rest => (if decide (x = st) then 1 else 0) + tally st rest
  end.

(** The stretches of [segment], with the wake-ups a release issues, as
    [my_rwlock_unlock] computes them. *)
Definition wsegment (r : request) (st : wstate) (l : my_rwlock_t)
  : option (wstate * my_rwlock_t * list prim) :=
  match r, st with
  | Rdlock, Out =>
      let l1 := rdlock_enter l in
      Some (if rd_blocked l1 then (AsleepR, l1, []) else (InR, rdlock_admit l1, []))
  | Wakeup, AwakeR =>
      Some (if rd_blocked l then (AsleepR, l, []) else (InR, rdlock_admit l, []))
  | Wrlock, Out =>
      let l1 := wrlock_enter l in
      Some (if wr_blocked l1 then (AsleepW, l1, []) else (InW, wrlock_admit l1, []))
  | Wakeup, AwakeW =>
      Some (if wr_blocked l then (AsleepW, l, []) else (InW, wrlock_admit l, []))
  | Unlock, InR | Unlock, InW =>
      let '(_, l', ps) := run (my_rwlock_unlock ADDR) quiet l in
      Some (Out, l', wakes ps)
  | _, _ => None
  end.

(** What one wake-up call does to the sleepers: a signal wakes the sleeper
    [pick] of its condition variable if there is any sleeper, a broadcast
    wakes them all. *)
Definition deliver_one (p : prim) (pick : nat) (ts : list wstate) : option (list wstate) :=
  match p with
  | pthread_cond_signal cv =>
      if 0 <? tally (asleep_on cv) ts then
        match ts !! pick with
        | Some st =>
            if decide (st = asleep_on cv) then Some (<[pick := awake_from cv]> ts) else None
        | None => None
        end
      else Some ts
  | pthread_cond_broadcast cv =>
      Some (map (fun st => if decide (st = asleep_on cv) then awake_from cv else st) ts)
  | _ => Some ts
  end.

Fixpoint deliver (ps : list prim) (pick : nat) (ts : list wstate) : option (list wstate) :=
  match ps with
  | [] => Some ts
  | p :: rest =>
      match deliver_one p pick ts with
      | None => None
      | Some ts' => deliver rest pick ts'
      end
  end.

Record wsystem : Type := WSystem {
  wlk : my_rwlock_t;
  wpool : list wstate
}.

Definition wboot (n : nat) : wsystem := WSystem fresh_lock (replicate n Out).

(** What happens next: thread [t] runs a stretch, any signal it sends going
    to sleeper [pick]; or sleeper [t] wakes with no one having called. *)
Inductive event : Type :=
| Runs (t : nat) (r : request) (pick : nat)
| Spurious (t : nat).

Definition wfire (e : event) (s : wsystem) : option wsystem :=
  match e with
  | Runs t r pick =>
      match wpool s !! t with
      | None => None
      | Some st =>
          match wsegment r st (wlk s) with
          | None => None
          | Some (st', l', ps) =>
              match deliver ps pick (<[t := st']> (wpool s)) with
              | None => None
              | Some ts => Some (WSystem l' ts)
              end
          end
      end
  | Spurious t =>
      match wpool s !! t with
      | Some AsleepR => Some (WSystem (wlk s) (<[t := AwakeR]> (wpool s)))
      | Some AsleepW => Some (WSystem (wlk s) (<[t := AwakeW]> (wpool s)))
      | _ => None
      end
  end.

Fixpoint wplay (es : list event) (s : wsystem) : option wsystem :=
  match es with
  | [] => Some s
  | e :: rest =>
      match wfire e s with
      | None => None
      | Some s' => wplay rest s'
      end
  end.



(** ** The workload seen thread by thread *)

Section WorkloadAlone.
Context {streams : RandomStreams}.

(** The locals after one more pass: the draws and the counters of a pass do
    not look at the list. *)
Definition pass (cfg : settings) (w : worker) : worker := fst (fst (loop_body cfg w [])).

(** The locals of the thread of rank [rank] when it leaves the loop of
    [ops_per_thread] passes. *)
Definition Thread_final (cfg : settings) (rank : nat) : worker :=
  Nat.iter (Z.to_nat (ops_per_thread cfg)) (pass cfg) (Thread_entry (Z.of_nat rank)).

End WorkloadAlone.

(** Sum of [f rank] over the threads that have returned, the first thread of
    the list having rank [rank]. *)
Fixpoint merged (f : nat -> Z) (rank : nat) (ths : list thread) : Z :=
  match ths with
  | [] => 0
  | Returned :: rest => f rank + merged f (S rank) rest
  | Working _ :: rest => merged f (S rank) rest
  end.

(** A selector stream that always draws 0.5, and keys that step by one. *)
Definition steady_streams : RandomStreams :=
  Build_RandomStreams (fun s => (s, s + 1)) (fun s => (half, s + 1)).

Definition key_in_range (k : Z) : Prop := 0 <= k < MAX_KEY.

(** What the list is at every moment of a run. *)
Definition list_ok (hd : list Z) : Prop := ascending hd = true /\ Forall key_in_range hd.

(** Inside the loop a thread is some number of passes away from its entry,
    and [i] counts them. *)
Definition on_track {streams : RandomStreams} (cfg : settings) (t : nat) (th : thread) : Prop :=
  match th with
  | Returned => True
  | Working w =>
      exists k : nat,
        (k <= Z.to_nat (ops_per_thread cfg))%nat /\
        w = Nat.iter k (pass cfg) (Thread_entry (Z.of_nat t)) /\
        i w = Z.of_nat k
  end.

(** The shared totals are the sums, reduced to [int], of what the returned
    threads counted. *)
Record settled {streams : RandomStreams} (cfg : settings) (h : harness) : Prop := Settled {
  st_threads : forall t th, threads h !! t = Some th -> on_track cfg t th;
  st_member : member_count (globals h)
              = int_wrap (merged (fun r => my_member_count (Thread_final cfg r)) 0 (threads h));
  st_insert : insert_count (globals h)
              = int_wrap (merged (fun r => my_insert_count (Thread_final cfg r)) 0 (threads h));
  st_delete : delete_count (globals h)
              = int_wrap (merged (fun r => my_delete_count (Thread_final cfg r)) 0 (threads h))
}.

(** Only searches so far: no thread has counted, and the totals hold, no
    insertion and no deletion. *)
Definition searches_only (h : harness) : Prop :=
  insert_count (globals h) = 0 /\ delete_count (globals h) = 0 /\
  Forall (fun th => match th with
                    | Returned => True
                    | Working w => my_insert_count w = 0 /\ my_delete_count w = 0
                    end) (threads h).

(** ** test_pthread_rwlock.c: the list in memory *)

(** [struct list_node_s]; a pointer is [None] for NULL or the address of a
    node. *)
Record list_node_s : Type := Node {
  data : Z;
  next : option nat
}.

(** The allocated nodes and the global [head]. *)
Record memory : Type := Memory {
  cells : gmap nat list_node_s;
  head_ptr : option nat
}.

(** How a call on the memory ends: it returns; or it dereferences NULL or a
    node that is not allocated; or its loop goes round more times than there
    are nodes, which it can only do for ever. *)
Inductive ending (A : Type) : Type :=
| Returns (a : A)
| Faults
| Loops.
Arguments Returns {A} a.
Arguments Faults {A}.
Arguments Loops {A}.

(** [while (curr != NULL && curr->data < value) { pred = curr;
    curr = curr->next; }], the loop [Insert] and [Delete] share. *)
Fixpoint advance_to (fuel : nat) (c : gmap nat list_node_s) (value : Z)
    (pred curr : option nat) : ending (option nat * option nat) :=
  match curr with
  | None => Returns (pred, None)
  | Some a =>
      match c !! a with
      | None => Faults
      | Some nd =>
          if data nd <? value then
            match fuel with
            | O => Loops
            | S fuel' => advance_to fuel' c value (Some a) (next nd)
            end
          else Returns (pred, curr)
      end
  end.

(** [Insert], given what its [malloc] returns. *)
Definition Insert_mem (value : Z) (malloced : option nat) (m : memory)
  : ending (Z * memory) :=
  match advance_to (size (cells m)) (cells m) value None (head_ptr m) with
  | Faults => Faults
  | Loops => Loops
  | Returns (pred, curr) =>
      let after :=
        match curr with
        | None => Some true
        | Some a => match cells m !! a with
                    | None => None
                    | Some nd => Some (data nd >? value)
                    end
        end in
      match after with
      | None => Faults
      | Some false => Returns (0, m)
      | Some true =>
          match malloced with
          | None => Faults
          | Some temp =>
              let c1 := <[temp := Node value curr]> (cells m) in
              match pred with
              | None => Returns (1, Memory c1 (Some temp))
              | Some p =>
                  match c1 !! p with
                  | None => Faults
                  | Some nd =>
                      Returns (1, Memory (<[p := Node (data nd) (Some temp)]> c1) (head_ptr m))
                  end
              end
          end
      end
  end.

(** [while (temp != NULL && temp->data < value) temp = temp->next;] and the
    test that follows. *)
Fixpoint Member_from (fuel : nat) (c : gmap nat list_node_s) (value : Z)
    (temp : option nat) : ending Z :=
  match temp with
  | None => Returns 0
  | Some a =>
      match c !! a with
      | None => Faults
      | Some nd =>
          if data nd <? value then
            match fuel with
            | O => Loops
            | S fuel' => Member_from fuel' c value (next nd)
            end
          else if data nd >? value then Returns 0 else Returns 1
      end
  end.

Definition Member_mem (value : Z) (m : memory) : ending Z :=
  Member_from (size (cells m)) (cells m) value (head_ptr m).

Definition Delete_mem (value : Z) (m : memory) : ending (Z * memory) :=
  match advance_to (size (cells m)) (cells m) value None (head_ptr m) with
  | Faults => Faults
  | Loops => Loops
  | Returns (pred, curr) =>
      match curr with
      | None => Returns (0, m)
      | Some a =>
          match cells m !! a with
          | None => Faults
          | Some nd =>
              if data nd =? value then
                match pred with
                | None => Returns (1, Memory (delete a (cells m)) (next nd))
                | Some p =>
                    match cells m !! p with
                    | None => Faults
                    | Some pd =>
                        Returns (1, Memory (delete a (<[p := Node (data pd) (next nd)]> (cells m)))
                                           (head_ptr m))
                    end
                end
              else Returns (0, m)
          end
      end
  end.

Definition Is_empty (m : memory) : Z :=
  match head_ptr m with None => 1 | Some _ => 0 end.

(** The loop of [Free_list] from [current] on: [current->next] is read, then
    [current] is freed. *)
Fixpoint free_from (fuel : nat) (c : gmap nat list_node_s) (current : nat)
  : ending (gmap nat list_node_s) :=
  match c !! current with
  | None => Faults
  | Some nd =>
      match next nd with
      | None => Returns (delete current c)
      | Some following =>
          match fuel with
          | O => Loops
          | S fuel' => free_from fuel' (delete current c) following
          end
      end
  end.

(** [Free_list] does not assign [head]. *)
Definition Free_list (m : memory) : ending memory :=
  if Is_empty m =? 1 then Returns m
  else
    match head_ptr m with
    | None => Returns m
    | Some current =>
        match free_from (size (cells m)) (cells m) current with
        | Returns c => Returns (Memory c (head_ptr m))
        | Faults => Faults
        | Loops => Loops
        end
    end.

(** The keys [Print] writes, in order. *)
Fixpoint Print_from (fuel : nat) (c : gmap nat list_node_s) (temp : option nat)
  : ending (list Z) :=
  match temp with
  | None => Returns []
  | Some a =>
      match c !! a with
      | None => Faults
      | Some nd =>
          match fuel with
          | O => Loops
          | S fuel' =>
              match Print_from fuel' c (next nd) with
              | Returns ks => Returns (data nd :: ks)
              | Faults => Faults
              | Loops => Loops
              end
          end
      end
  end.

Definition Print (m : memory) : ending (list Z) :=
  Print_from (size (cells m)) (cells m) (head_ptr m).

(** The nodes at [addrs], linked in this order from [p] to [q], hold [keys]. *)
Fixpoint lseg (c : gmap nat list_node_s) (p q : option nat)
    (addrs : list nat) (keys : list Z) : Prop :=
  match addrs, keys with
  | [], [] => p = q
  | a :: addrs', k :: keys' =>
      p = Some a /\ exists nx, c !! a = Some (Node k nx) /\ lseg c nx q addrs' keys'
  | _, _ => False
  end.

(** The memory holds the list [keys] in the distinct nodes [addrs], and
    nothing else. *)
Record holds (m : memory) (addrs : list nat) (keys : list Z) : Prop := Holds {
  holds_list : lseg (cells m) (head_ptr m) None addrs keys;
  holds_distinct : List.NoDup addrs;
  holds_all : forall a, is_Some (cells m !! a) -> In a addrs
}.

(** A memory holding the list 3, 5 in the nodes at addresses 1 and 2. *)
Definition sample_memory : memory :=
  Memory (<[2%nat := Node 5 None]> (<[1%nat := Node 3 (Some 2%nat)]> ∅)) (Some 1%nat).

(** ** firstTask.c: the Mandelbrot sampler *)

(** Double arithmetic is taken as the source writes it, one rounding for each
    operation and no fused multiply-add. *)
Definition dmul (x y : double) : double := SFmul 53 1024 x y.
Definition ddiv (x y : double) : double := SFdiv 53 1024 x y.

(** [x >= y], false when either side is a NaN. *)
Definition dge (x y : double) : bool := SFleb y x.

Definition double_zero : double := S754_zero false.
Definition double_two : double := S754_finite false 4503599627370496 (-51).
Definition double_four : double := S754_finite false 4503599627370496 (-50).
Definition double_one_and_half : double := S754_finite false 6755399441055744 (-52).

(** [(double)n] for an [int]. *)
Definition double_of_int (n : Z) : double := binary_normalize 53 1024 n 0 false.

Definition MAX_ITERATIONS : nat := 1000.
Definition MIN_X : double := SFopp double_two.
Definition MAX_X : double := double_one.
Definition MIN_Y : double := SFopp double_one_and_half.
Definition MAX_Y : double := double_one_and_half.

(** [stdlib.h]: the value of RAND_MAX in glibc. *)
Definition RAND_MAX : Z := 2147483647.

Record Point : Type := Build_Point {
  x : double;
  y : double
}.

(** The [for] loop of [mandelbrotContains] with [remaining] passes to go. *)
Fixpoint mandelbrot_loop (remaining : nat) (real img z_real z_img : double) : Z :=
  match remaining with
  | O => 1
  | S remaining' =>
      let z_real_sq := dmul z_real z_real in
      let z_img_sq := dmul z_img z_img in
      if dge (dadd z_real_sq z_img_sq) double_four then 0
      else
        let new_z_real := dadd (dsub z_real_sq z_img_sq) real in
        let new_z_img := dadd (dmul (dmul double_two z_real) z_img) img in
        mandelbrot_loop remaining' real img new_z_real new_z_img
  end.

Definition mandelbrotContains (real img : double) : Z :=
  mandelbrot_loop MAX_ITERATIONS real img double_zero double_zero.

(** [(double)rand() / RAND_MAX * (hi - lo) + lo] for a [rand()] that
    returned [r]. *)
Definition coordinate (r : Z) (lo hi : double) : double :=
  dadd (dmul (ddiv (double_of_int r) (double_of_int RAND_MAX)) (dsub hi lo)) lo.

(** *** The parallel region of [main] *)

(** Two's complement reduction to a 64-bit [long]. *)
Definition long_wrap (z : Z) : Z :=
  (z + 9223372036854775808) mod 18446744073709551616 - 9223372036854775808.

(** Where a thread of the team stands: at the atomic read of [count]; at the
    atomic capture [count++], with the point that passed the test; at the
    stores into [points], with the index it captured; or out of the loop
    after a [break]. *)
Inductive place : Type :=
| At_read
| At_capture (p : Point)
| At_store (current_index : Z) (p : Point)
| Out_of_loop.

(** The shared [count], the array [points], whose elements are [None] until
    they are first stored to, and the threads of the team. *)
Record region : Type := Region {
  count : Z;
  points : list (option Point);
  team : list place
}.

(** Thread [t] runs up to its next access to shared data; [r1] and [r2] are
    what its two calls of [rand] return if it draws a point. *)
Inductive turn : Type :=
| Moves (t : nat) (r1 r2 : Z).

(** One turn.  [None] is a store outside the array. *)
Definition move (npoints : Z) (e : turn) (h : region) : option region :=
  let '(Moves t r1 r2) := e in
  match team h !! t with
  | None => Some h
  | Some Out_of_loop => Some h
  | Some At_read =>
      let current_count := count h in
      if current_count >=? npoints then
        Some (Region (count h) (points h) (<[t := Out_of_loop]> (team h)))
      else
        let p := Build_Point (coordinate r1 MIN_X MAX_X) (coordinate r2 MIN_Y MAX_Y) in
        if mandelbrotContains (x p) (y p) =? 0 then Some h
        else Some (Region (count h) (points h) (<[t := At_capture p]> (team h)))
  | Some (At_capture p) =>
      let current_index := count h in
      let after := if current_index <? npoints then At_store current_index p
                   else Out_of_loop in
      Some (Region (long_wrap (count h + 1)) (points h) (<[t := after]> (team h)))
  | Some (At_store current_index p) =>
      if (0 <=? current_index) && (current_index <? Z.of_nat (length (points h))) then
        Some (Region (count h) (<[Z.to_nat current_index := Some p]> (points h))
                (<[t := At_read]> (team h)))
      else None
  end.

Fixpoint moves (npoints : Z) (es : list turn) (h : region) : option region :=
  match es with
  | [] => Some h
  | e :: es' =>
      match move npoints e h with
      | Some h' => moves npoints es' h'
      | None => None
      end
  end.

(** The region as [main] enters it: [count] is 0, nothing is stored yet,
    and every thread of the team is at the top of the loop. *)
Definition enter (npoints : Z) (threads : nat) : region :=
  Region 0 (replicate (Z.to_nat npoints) None) (replicate threads At_read).

(** The index a thread has captured and not stored to yet. *)
Definition owes (s : place) : option Z :=
  match s with
  | At_store current_index _ => Some current_index
  | _ => None
  end.

Definition owed (ts : list place) : list Z := omap owes ts.

(** The point a thread carries. *)
Definition carries (s : place) : option Point :=
  match s with
  | At_capture p => Some p
  | At_store _ p => Some p
  | _ => None
  end.

Definition contained (p : Point) : Prop := mandelbrotContains (x p) (y p) <> 0.

(** Number of threads that have left the loop. *)
Fixpoint departed (ts : list place) : nat :=
  match ts with
  | [] => 0
  | Out_of_loop :: ts' => S (departed ts')
  | _ :: ts' => departed ts'
  end.

(** What every turn keeps: the indices below [count] and [npoints] are the
    ones stored to and the ones owed, each owed by one thread and not stored
    to yet; [count] exceeds [npoints] by at most the number of threads that
    have left. *)
Record collecting (npoints : Z) (h : region) : Prop := Collecting {
  col_length : length (points h) = Z.to_nat npoints;
  col_count : 0 <= count h <= npoints + Z.of_nat (departed (team h));
  col_left : In Out_of_loop (team h) -> npoints <= count h;
  col_owed : forall i, In i (owed (team h)) ->
             0 <= i < Z.min (count h) npoints /\ points h !! Z.to_nat i = Some None;
  col_distinct : List.NoDup (owed (team h));
  col_done : forall i, 0 <= i < Z.min (count h) npoints ->
             In i (owed (team h)) \/ exists p, points h !! Z.to_nat i = Some (Some p);
  col_written : forall n p, points h !! n = Some (Some p) ->
                contained p /\ Z.of_nat n < count h;
  col_carried : forall s p, In s (team h) -> carries s = Some p -> contained p
}.

(** A run of a team of one for one point: the draw lands near the origin,
    the thread captures index 0, stores, and leaves at its next read. *)
Definition sample_turns : list turn :=
  [Moves 0 1431655764 1073741823; Moves 0 0 0; Moves 0 0 0; Moves 0 0 0].

Definition sample_end : region :=
  Eval vm_compute in
    match moves 1 sample_turns (enter 1 1) with
    | Some h => h
    | None => enter 1 1
    end.

(** * Verification *)

(** ** Arithmetic of [int] *)

Lemma int_wrap_id (z : Z) : in_int z -> int_wrap z = z.
Proof.
  unfold in_int, INT_MIN, INT_MAX, int_wrap. intros H.
  rewrite Z.mod_small by lia. lia.
Qed.

Lemma int_incr_exact (z : Z) : INT_MIN <= z < INT_MAX -> int_incr z = z + 1.
Proof. intros H. apply int_wrap_id. unfold in_int, INT_MIN, INT_MAX in *. lia. Qed.

Lemma int_decr_exact (z : Z) : INT_MIN < z <= INT_MAX -> int_decr z = z - 1.
Proof. intros H. apply int_wrap_id. unfold in_int, INT_MIN, INT_MAX in *. lia. Qed.

(** ** The calls, stretch by stretch *)

Ltac run_call :=
  unfold run, my_rwlock_unlock, my_rwlock_rdlock, my_rwlock_wrlock, wake_next,
    bind, call, field, modify, ret; cbn [obj trace is_wait fst snd].

(** [my_rwlock_unlock]: always 0, the fields of [unlock_fields], and between
    the mutex calls the wake-up block, which a reader reaches only as the
    last one out. *)
Lemma unlock_run (P : platform) (l : my_rwlock_t) :
  run (my_rwlock_unlock ADDR) P l =
    (0, unlock_fields l,
     [pthread_mutex_lock]
       ++ (if writer_active l || (active_readers (unlock_fields l) =? 0)
           then wake_policy (unlock_fields l) else [])
       ++ [pthread_mutex_unlock]).
Proof.
  run_call. unfold unlock_fields, wake_policy.
  destruct l as [ar wr ww wa]; cbn.
  destruct wa; cbn.
  - destruct (0 <? ww); cbn; [reflexivity|].
    destruct (0 <? wr); cbn; reflexivity.
  - destruct (int_decr ar =? 0); cbn; [|reflexivity].
    destruct (0 <? ww); cbn; [reflexivity|].
    destruct (0 <? wr); cbn; reflexivity.
Qed.

(** [my_rwlock_rdlock] up to its first decision is the reader's entry
    stretch. *)
Lemma rdlock_run_entry (P : platform) (l : my_rwlock_t) :
  run (my_rwlock_rdlock ADDR 0) P l =
    if rd_blocked (rdlock_enter l)
    then (None, rdlock_enter l, [pthread_mutex_lock])
    else (Some 0, rdlock_admit (rdlock_enter l), [pthread_mutex_lock; pthread_mutex_unlock]).
Proof.
  run_call. cbn. destruct (rd_blocked (rdlock_enter l)) eqn:E; cbn;
    unfold rdlock_enter in E; rewrite E; reflexivity.
Qed.

Lemma wrlock_run_entry (P : platform) (l : my_rwlock_t) :
  run (my_rwlock_wrlock ADDR 0) P l =
    if wr_blocked (wrlock_enter l)
    then (None, wrlock_enter l, [pthread_mutex_lock])
    else (Some 0, wrlock_admit (wrlock_enter l), [pthread_mutex_lock; pthread_mutex_unlock]).
Proof.
  run_call. cbn. destruct (wr_blocked (wrlock_enter l)) eqn:E; cbn;
    unfold wrlock_enter in E; rewrite E; reflexivity.
Qed.

(** A parked caller that is woken runs the same test on the fields the
    other threads left, and is admitted or parks again. *)
Lemma rdlock_run_wakeup (P : platform) (l : my_rwlock_t) :
  rd_blocked (rdlock_enter l) = true ->
  let l2 := meanwhile P 1%nat (rdlock_enter l) in
  run (my_rwlock_rdlock ADDR 1) P l =
    if rd_blocked l2
    then (None, l2, [pthread_mutex_lock; pthread_cond_wait readers_cv])
    else (Some 0, rdlock_admit l2,
          [pthread_mutex_lock; pthread_cond_wait readers_cv; pthread_mutex_unlock]).
Proof.
  intros Hb. run_call. cbn. unfold rdlock_enter in Hb. rewrite Hb.
  unfold bind, call, field, ret. cbn.
  destruct (rd_blocked (meanwhile P 1%nat (rdlock_enter l))) eqn:E;
    unfold rdlock_enter in E; rewrite E; reflexivity.
Qed.

Lemma wrlock_run_wakeup (P : platform) (l : my_rwlock_t) :
  wr_blocked (wrlock_enter l) = true ->
  let l2 := meanwhile P 1%nat (wrlock_enter l) in
  run (my_rwlock_wrlock ADDR 1) P l =
    if wr_blocked l2
    then (None, l2, [pthread_mutex_lock; pthread_cond_wait writers_cv])
    else (Some 0, wrlock_admit l2,
          [pthread_mutex_lock; pthread_cond_wait writers_cv; pthread_mutex_unlock]).
Proof.
  intros Hb. run_call. cbn. unfold wrlock_enter in Hb. rewrite Hb.
  unfold bind, call, field, ret. cbn.
  destruct (wr_blocked (meanwhile P 1%nat (wrlock_enter l))) eqn:E;
    unfold wrlock_enter in E; rewrite E; reflexivity.
Qed.

(** What the wait loop returns, whatever the platform reports. *)
Lemma wait_while_clear (cond : my_rwlock_t -> bool) (cv : condvar) (n : nat)
    (P : platform) (w : world) :
  cond (obj w) = false -> wait_while cond cv n P w = (true, w).
Proof.
  intros H. destruct n; cbn; unfold bind, field, ret; rewrite H; reflexivity.
Qed.

(** ** Mutual exclusion *)

(** No stretch of any call can produce a writer next to an active reader:
    a reader is admitted only with the flag down and leaves it down, a writer
    only with no positive reader count and leaves the count, and a release
    either lowers the flag or finds it down. *)
Lemma segment_exclusive (r : request) (st st' : tstate) (l l' : my_rwlock_t) :
  segment r st l = Some (st', l') -> exclusive l -> exclusive l'.
Proof.
  unfold exclusive. destruct l as [ar wr ww wa].
  destruct r, st; cbn; intros H; try discriminate; intros Hex.
  - (* rdlock entered *)
    unfold rd_blocked in H; cbn in H.
    destruct wa; cbn in H; [injection H as <- <-; cbn; tauto|].
    destruct (0 <? ww); injection H as <- <-; cbn; intros [? ?]; discriminate.
  - (* wrlock entered *)
    unfold wr_blocked in H; cbn in H.
    destruct (0 <? ar) eqn:E; cbn in H; [injection H as <- <-; cbn; tauto|].
    apply Z.ltb_ge in E.
    destruct wa; injection H as <- <-; cbn; lia.
  - (* a parked reader comes back *)
    unfold rd_blocked in H; cbn in H.
    destruct wa; cbn in H; [injection H as <- <-; cbn; tauto|].
    destruct (0 <? ww); injection H as <- <-; cbn; intros [? ?]; discriminate.
  - (* a parked writer comes back *)
    unfold wr_blocked in H; cbn in H.
    destruct (0 <? ar) eqn:E; cbn in H; [injection H as <- <-; cbn; tauto|].
    apply Z.ltb_ge in E.
    destruct wa; injection H as <- <-; cbn; lia.
  - unfold unlock_fields in H; cbn in H.
    destruct wa; injection H as <- <-; cbn; intros [? ?]; discriminate.
  - unfold unlock_fields in H; cbn in H.
    destruct wa; injection H as <- <-; cbn; intros [? ?]; discriminate.
Qed.

(** C1. From the zeroed lock, after any interleaving of the stretches of
    rdlock, wrlock and unlock (by any caller, holding the lock or not),
    [writer_active] and [active_readers > 0] never hold together. *)
Theorem mutual_exclusion (l : my_rwlock_t) :
  lock_reachable l -> ~ (writer_active l = true /\ 0 < active_readers l).
Proof.
  induction 1 as [|l l' _ IH (r & st & st' & Hseg)].
  - cbn. intros [? _]; discriminate.
  - exact (segment_exclusive r st st' l l' Hseg IH).
Qed.

Lemma two_readers_one_writer_parked : lock_reachable (Rwlock 2 0 1 false).
Proof.
  apply (reach_step (Rwlock 2 0 0 false)).
  - apply (reach_step (Rwlock 1 0 0 false)).
    + apply (reach_step fresh_lock); [constructor|].
      exists Rdlock, Idle, Reading. reflexivity.
    + exists Rdlock, Idle, Reading. reflexivity.
  - exists Wrlock, Idle, ParkedW. reflexivity.
Qed.

Lemma mutual_exclusion_witness :
  ~ (writer_active (Rwlock 2 0 1 false) = true /\ 0 < active_readers (Rwlock 2 0 1 false)).
Proof.
  apply (mutual_exclusion (Rwlock 2 0 1 false)).
  apply (reach_step (Rwlock 2 0 0 false)).
  - apply (reach_step (Rwlock 1 0 0 false)).
    + apply (reach_step fresh_lock); [constructor|].
      exists Rdlock, Idle, Reading. reflexivity.
    + exists Rdlock, Idle, Reading. reflexivity.
  - exists Wrlock, Idle, ParkedW. reflexivity.
Defined.

(** ** Release *)

(** C2, as stated, fails: with two readers inside and a writer parked, the
    first reader to leave sees [waiting_writers > 0] after lowering the count
    and signals nobody. *)
Lemma wake_policy_not_on_every_release :
  lock_reachable (Rwlock 2 0 1 false) /\
  reachable 3 (System (Rwlock 2 0 1 false) [Reading; Reading; ParkedW]) /\
  run (my_rwlock_unlock ADDR) quiet (Rwlock 2 0 1 false)
    = (0, Rwlock 1 0 1 false, [pthread_mutex_lock; pthread_mutex_unlock]) /\
  wake_policy (Rwlock 1 0 1 false) = [pthread_cond_signal writers_cv] /\
  wakes [pthread_mutex_lock; pthread_mutex_unlock] <> wake_policy (Rwlock 1 0 1 false).
Proof.
  split; [exact two_readers_one_writer_parked|].
  split; [exists [(0%nat, Rdlock); (1%nat, Rdlock); (2%nat, Wrlock)]; reflexivity|].
  split; [reflexivity|]. split; [reflexivity|]. cbn. discriminate.
Qed.

Lemma wakes_between (ps : list prim) :
  Forall (fun p => is_wake p = true) ps ->
  wakes ([pthread_mutex_lock] ++ ps ++ [pthread_mutex_unlock]) = ps.
Proof.
  intros H. unfold wakes.
  change ([pthread_mutex_lock] ++ ps ++ [pthread_mutex_unlock])
    with (pthread_mutex_lock :: ps ++ [pthread_mutex_unlock]).
  rewrite filter_cons_False by (cbn; discriminate).
  rewrite filter_app, filter_cons_False by (cbn; discriminate).
  rewrite filter_nil, app_nil_r.
  induction H as [|p ps Hp _ IH]; [reflexivity|].
  rewrite filter_cons_True by exact Hp. f_equal. exact IH.
Qed.

Lemma wake_policy_wakes (l : my_rwlock_t) : Forall (fun p => is_wake p = true) (wake_policy l).
Proof.
  unfold wake_policy. destruct (0 <? waiting_writers l); [repeat constructor|].
  destruct (0 <? waiting_readers l); repeat constructor.
Qed.

(** C2, amended.  Every release returns 0 and clears the holder's role as
    the flag tells it; the wake policy (one writer signalled if writers wait,
    else readers broadcast if readers wait, else nothing) is applied when the
    flag was up or the reader count reaches 0, and a release that leaves
    readers inside wakes nobody. *)
Theorem release_wake_policy (P : platform) (l : my_rwlock_t) :
  let '(rc, l', ps) := run (my_rwlock_unlock ADDR) P l in
  rc = 0 /\
  l' = (if writer_active l then set_writer_active false l
        else upd_active_readers int_decr l) /\
  wakes ps = (if writer_active l || (active_readers l' =? 0)
              then wake_policy l' else []).
Proof.
  rewrite unlock_run. split; [reflexivity|]. split; [reflexivity|].
  apply wakes_between.
  destruct (writer_active l || (active_readers (unlock_fields l) =? 0)).
  - apply wake_policy_wakes.
  - constructor.
Qed.

(** C10. Release does not check that its caller holds the lock: on fields
    with the flag down and no reader inside it reports success and leaves
    [active_readers = -1]. *)
Theorem unlock_without_holder (P : platform) (l : my_rwlock_t) :
  writer_active l = false -> active_readers l = 0 ->
  let '(rc, l', _) := run (my_rwlock_unlock ADDR) P l in
  rc = 0 /\ active_readers l' = -1 /\ ~ (0 <= active_readers l').
Proof.
  intros Hw Ha. rewrite unlock_run. unfold unlock_fields. rewrite Hw.
  cbn [upd_active_readers active_readers]. rewrite Ha.
  change (int_decr 0) with (-1). repeat split. lia.
Qed.

Lemma unlock_without_holder_witness :
  let '(rc, l', _) := run (my_rwlock_unlock ADDR) quiet fresh_lock in
  rc = 0 /\ active_readers l' = -1 /\ ~ (0 <= active_readers l').
Proof.
  apply (unlock_without_holder quiet fresh_lock); reflexivity.
Defined.

(** ** Error codes *)











(** Initialisation, by contrast, hands the code of a failing primitive to its
    caller. *)
Lemma init_propagates (P : platform) (l : my_rwlock_t) :
  reports P 0%nat pthread_mutex_init <> 0 ->
  fst (fst (run (my_rwlock_init ADDR) P l)) = reports P 0%nat pthread_mutex_init.
Proof.
  intros H. unfold run, my_rwlock_init, bind, call, ret. cbn.
  destruct (Z.eqb_spec (reports P 0%nat pthread_mutex_init) 0); [contradiction|reflexivity].
Qed.

Lemma init_zeroes (P : platform) (l : my_rwlock_t) :
  reports P 0%nat pthread_mutex_init = 0 ->
  reports P 1%nat (pthread_cond_init readers_cv) = 0 ->
  reports P 2%nat (pthread_cond_init writers_cv) = 0 ->
  run (my_rwlock_init ADDR) P l
    = (0, fresh_lock,
       [pthread_mutex_init; pthread_cond_init readers_cv; pthread_cond_init writers_cv]).
Proof.
  intros H0 H1 H2. unfold run, my_rwlock_init, bind, call, modify, ret. cbn.
  rewrite H0. cbn. rewrite H1. cbn. rewrite H2. reflexivity.
Qed.

(** A reader parked behind a writer is let in when a wake-up finds the
    writer gone, and not before. *)
Example rdlock_waits_for_writer :
  let P := Platform (fun _ _ => 0) (fun _ l => unlock_fields l) in
  run (my_rwlock_rdlock ADDR 0) P (Rwlock 0 0 0 true)
    = (None, Rwlock 0 1 0 true, [pthread_mutex_lock]) /\
  run (my_rwlock_rdlock ADDR 1) P (Rwlock 0 0 0 true)
    = (Some 0, Rwlock 1 0 0 false,
       [pthread_mutex_lock; pthread_cond_wait readers_cv; pthread_mutex_unlock]).
Proof. split; reflexivity. Qed.

(** ** Counting threads *)

Lemma census_bounds (x : tstate) (ts : list tstate) :
  0 <= census x ts <= Z.of_nat (length ts).
Proof.
  induction ts as [|y ts IH]; cbn [census length]; [lia|].
  destruct (decide (y = x)); lia.
Qed.

Lemma census_disjoint (x y : tstate) (ts : list tstate) :
  x <> y -> census x ts + census y ts <= Z.of_nat (length ts).
Proof.
  intros Hxy. induction ts as [|z ts IH]; cbn [census length]; [lia|].
  destruct (decide (z = x)), (decide (z = y)); try lia. congruence.
Qed.

Lemma census_present (ts : list tstate) (t : nat) (st : tstate) :
  ts !! t = Some st -> 1 <= census st ts.
Proof.
  revert t. induction ts as [|z ts IH]; intros [|t] H; try discriminate; cbn in *.
  - injection H as ->. pose proof (census_bounds st ts).
    destruct (decide (st = st)); [lia|congruence].
  - specialize (IH t H). destruct (decide (z = st)); lia.
Qed.

(** Moving thread [t] from [st] to [st'] moves one unit of the census. *)
Lemma census_insert (x : tstate) (ts : list tstate) (t : nat) (st st' : tstate) :
  ts !! t = Some st ->
  census x (<[t := st']> ts)
    = census x ts - (if decide (st = x) then 1 else 0) + (if decide (st' = x) then 1 else 0).
Proof.
  revert t. induction ts as [|z ts IH]; intros [|t] H; try discriminate.
  - injection H as ->. cbn. lia.
  - change (<[S t := st']> (z :: ts)) with (z :: <[t := st']> ts).
    cbn [census]. rewrite (IH t H). lia.
Qed.

Lemma census_replicate (x : tstate) (n : nat) :
  census x (replicate n Idle) = if decide (Idle = x) then Z.of_nat n else 0.
Proof.
  induction n as [|n IH]; cbn [replicate census].
  - destruct (decide (Idle = x)); reflexivity.
  - rewrite IH. destruct (decide (Idle = x)); lia.
Qed.

Lemma boot_accounted (n : nat) : accounted n (boot n).
Proof.
  constructor; cbn; rewrite ?census_replicate;
    first [reflexivity | discriminate | apply length_replicate].
Qed.

(** ** The counters under the calling discipline *)

Lemma fire_inv (t : nat) (r : request) (s s' : system) :
  fire t r s = Some s' ->
  exists st st',
    pool s !! t = Some st /\
    segment r st (lk s) = Some (st', lk s') /\
    pool s' = <[t := st']> (pool s).
Proof.
  unfold fire. destruct (pool s !! t) as [st|]; [|discriminate].
  destruct (segment r st (lk s)) as [[st' l']|] eqn:Hseg; [|discriminate].
  intros [= <-]. exists st, st'. repeat split. exact Hseg.
Qed.

Ltac exact_ints :=
  repeat match goal with
  | |- context [int_incr ?c] => rewrite (int_incr_exact c) by (unfold INT_MIN, INT_MAX in *; lia)
  | |- context [int_decr ?c] => rewrite (int_decr_exact c) by (unfold INT_MIN, INT_MAX in *; lia)
  end.

(** Every stretch keeps the counters equal to the census, as long as the
    thread count fits an [int]. *)
Lemma fire_accounted (n t : nat) (r : request) (s s' : system) :
  Z.of_nat n <= INT_MAX -> accounted n s -> fire t r s = Some s' -> accounted n s'.
Proof.
  intros Hn [Hlen Har Hwr Hww Hwa Hex] Hf.
  destruct (fire_inv t r s s' Hf) as (st & st' & Ht & Hseg & Hpool).
  destruct s as [[ar wr ww wa] ts], s' as [l' ts']. cbn in *. subst ts'.
  pose proof (census_present ts t st Ht) as Hone.
  pose proof (census_bounds Reading ts) as BR.
  pose proof (census_bounds ParkedR ts) as BPR.
  pose proof (census_bounds ParkedW ts) as BPW.
  pose proof (census_bounds Writing ts) as BW.
  pose proof (fun x => census_disjoint st x ts) as Hdis.
  pose proof (fun x => census_insert x ts t st st' Ht) as Hins.
  assert (Hwa' : wa = true -> census Reading ts = 0) by exact Hex.
  destruct r, st; cbn in Hseg; try discriminate.
  all: unfold rd_blocked, wr_blocked, unlock_fields, rdlock_admit, wrlock_admit,
         rdlock_enter, wrlock_enter in Hseg; cbn in Hseg.
  all: repeat match type of Hseg with
       | context [if ?b then _ else _] => destruct b eqn:?; cbn in Hseg
       end.
  all: injection Hseg as <- <-.
  all: constructor; cbn [lk pool active_readers waiting_readers waiting_writers writer_active].
  all: rewrite ?length_insert, ?Hins; try assumption.
  all: repeat match goal with |- context [decide ?P] => destruct (decide P); try congruence end.
  all: cbn [upd_active_readers upd_waiting_readers upd_waiting_writers set_writer_active
             active_readers waiting_readers waiting_writers writer_active].
  all: subst ar wr ww.
  all: try pose proof (Hdis Reading ltac:(discriminate)).
  all: try pose proof (Hdis ParkedR ltac:(discriminate)).
  all: try pose proof (Hdis ParkedW ltac:(discriminate)).
  all: try pose proof (Hdis Writing ltac:(discriminate)).
  all: clear Hdis Hins Hf.
  all: repeat match goal with
       | H : _ || _ = true |- _ => apply orb_true_iff in H
       | H : _ || _ = false |- _ => apply orb_false_iff in H; destruct H
       | H : (_ <? _) = true |- _ => apply Z.ltb_lt in H
       | H : (_ <? _) = false |- _ => apply Z.ltb_ge in H
       end.
  all: destruct wa; try discriminate.
  all: try (exact_ints; lia).
  all: try (intros; exact_ints; lia).
Qed.

Lemma reachable_accounted (n : nat) (s : system) :
  Z.of_nat n <= INT_MAX -> reachable n s -> accounted n s.
Proof.
  intros Hn [sched Hplay]. revert Hplay.
  generalize (boot_accounted n). generalize (boot n).
  induction sched as [|[t r] sched IH]; intros s0 Hacc; cbn.
  - intros [= <-]. exact Hacc.
  - destruct (fire t r s0) as [s1|] eqn:Hf; [|discriminate].
    apply IH. exact (fire_accounted n t r s0 s1 Hn Hacc Hf).
Qed.

(** The lock of a system of threads moves by [lock_step]: what holds of
    every [lock_reachable] lock holds under the calling discipline too. *)
Lemma reachable_lock (n : nat) (s : system) : reachable n s -> lock_reachable (lk s).
Proof.
  intros [sched Hplay]. revert Hplay.
  assert (H0 : lock_reachable (lk (boot n))) by constructor.
  revert H0. generalize (boot n).
  induction sched as [|[t r] sched IH]; intros s0 H0; cbn.
  - intros [= <-]. exact H0.
  - destruct (fire t r s0) as [s1|] eqn:Hf; [|discriminate].
    apply IH. destruct (fire_inv t r s0 s1 Hf) as (st & st' & _ & Hseg & _).
    apply (reach_step (lk s0)); [exact H0|]. exists r, st, st'. exact Hseg.
Qed.






(** ** The sorted list *)

Lemma ascending_cons (a : Z) (l : list Z) :
  ascending (a :: l) = true <-> below a l /\ ascending l = true.
Proof.
  destruct l as [|b l]; cbn [ascending below].
  - tauto.
  - rewrite andb_true_iff, Z.ltb_lt. tauto.
Qed.

Lemma below_trans (x y : Z) (l : list Z) : x < y -> below y l -> below x l.
Proof. destruct l; cbn; [trivial|lia]. Qed.

(** No key of an ascending list is at or below a bound of its first key. *)
Lemma below_all (x : Z) (l : list Z) :
  ascending l = true -> below x l -> forall v, In v l -> x < v.
Proof.
  revert x. induction l as [|a l IH]; intros x Hasc Hb v Hin; [destruct Hin|].
  apply ascending_cons in Hasc as [Hal Hl]. cbn in Hb.
  destruct Hin as [<-|Hin]; [exact Hb|].
  apply (IH a Hl Hal) in Hin. lia.
Qed.

Lemma ascending_NoDup (l : list Z) : ascending l = true -> List.NoDup l.
Proof.
  induction l as [|a l IH]; intros Hasc; [constructor|].
  apply ascending_cons in Hasc as [Hal Hl].
  constructor; [|apply IH; exact Hl].
  intros Hin. apply (below_all a l Hl Hal) in Hin. lia.
Qed.

Lemma Insert_below (x value : Z) (l : list Z) :
  x < value -> below x l -> below x (snd (Insert value l)).
Proof.
  intros Hx Hb. destruct l as [|a l]; cbn; [exact Hx|].
  destruct (a <? value); [destruct (Insert value l); exact Hb|].
  destruct (a >? value); cbn; [exact Hx|exact Hb].
Qed.

Lemma Insert_ascending (value : Z) (l : list Z) :
  ascending l = true -> ascending (snd (Insert value l)) = true.
Proof.
  induction l as [|a l IH]; intros Hasc; [reflexivity|].
  apply ascending_cons in Hasc as [Hal Hl]. cbn [Insert].
  destruct (Z.ltb_spec a value) as [Hlt|Hge].
  - pose proof (Insert_below a value l Hlt Hal) as Hb. specialize (IH Hl).
    destruct (Insert value l) as [rv l']. cbn in *.
    apply ascending_cons. auto.
  - destruct (Z.gtb_spec a value) as [Hgt|Hle]; cbn [snd].
    + apply ascending_cons. split; [cbn; lia|]. apply ascending_cons. auto.
    + apply ascending_cons. auto.
Qed.

Lemma Delete_below (x value : Z) (l : list Z) :
  ascending l = true -> below x l -> below x (snd (Delete value l)).
Proof.
  intros Hasc Hb. destruct l as [|a l]; cbn; [exact I|].
  apply ascending_cons in Hasc as [Hal Hl]. cbn in Hb.
  destruct (a <? value); [destruct (Delete value l); exact Hb|].
  destruct (a =? value); cbn; [|exact Hb].
  apply (below_trans x a); assumption.
Qed.

Lemma Delete_ascending (value : Z) (l : list Z) :
  ascending l = true -> ascending (snd (Delete value l)) = true.
Proof.
  induction l as [|a l IH]; intros Hasc; [reflexivity|].
  apply ascending_cons in Hasc as [Hal Hl]. cbn [Delete].
  destruct (a <? value).
  - pose proof (Delete_below a value l Hl Hal) as Hb. specialize (IH Hl).
    destruct (Delete value l) as [rv l']. cbn in *.
    apply ascending_cons. auto.
  - destruct (a =? value); cbn [snd]; [exact Hl|].
    apply ascending_cons. auto.
Qed.

(** C7. On a strictly ascending list, inserting a key that is already there
    returns 0 and leaves the very same list. *)
Theorem Insert_duplicate (value : Z) (head : list Z) :
  ascending head = true -> In value head ->
  Insert value head = (0, head) /\
  length (snd (Insert value head)) = length head.
Proof.
  intros Hasc Hin.
  assert (E : Insert value head = (0, head)); [|rewrite E; auto].
  induction head as [|a l IH]; [destruct Hin|].
  apply ascending_cons in Hasc as [Hal Hl]. cbn [Insert].
  destruct (Z.ltb_spec a value) as [Hlt|Hge].
  - destruct Hin as [->|Hin]; [lia|]. rewrite (IH Hl Hin). reflexivity.
  - destruct (Z.gtb_spec a value) as [Hgt|Hle]; [|reflexivity].
    exfalso. destruct Hin as [->|Hin]; [lia|].
    apply (below_all a l Hl Hal) in Hin. lia.
Qed.

Lemma Insert_duplicate_witness :
  Insert 5 [2; 5; 9] = (0, [2; 5; 9]) /\
  length (snd (Insert 5 [2; 5; 9])) = length [2; 5; 9].
Proof.
  apply (Insert_duplicate 5 [2; 5; 9]).
  - reflexivity.
  - right. left. reflexivity.
Defined.

(** C8. From a strictly ascending list (the empty one included), after each
    operation of any sequence of insertions and deletions the list is
    strictly ascending, hence without duplicate keys. *)
Theorem list_stays_sorted (ops : list list_op) (head : list Z) :
  ascending head = true ->
  Forall (fun l => ascending l = true /\ List.NoDup l) (lists_after ops head).
Proof.
  revert head. induction ops as [|o ops IH]; intros head Hasc; cbn [lists_after].
  - constructor.
  - assert (Ho : ascending (apply_op o head) = true).
    { destruct o; cbn [apply_op]; [apply Insert_ascending|apply Delete_ascending]; exact Hasc. }
    constructor; [|apply IH; exact Ho].
    split; [exact Ho|apply ascending_NoDup; exact Ho].
Qed.

Lemma list_stays_sorted_witness :
  Forall (fun l => ascending l = true /\ List.NoDup l)
    (lists_after [Op_Insert 5; Op_Insert 2; Op_Insert 5; Op_Delete 2; Op_Delete 7] []).
Proof.
  apply (list_stays_sorted [Op_Insert 5; Op_Insert 2; Op_Insert 5; Op_Delete 2; Op_Delete 7] []).
  reflexivity.
Defined.

Example lists_after_run :
  lists_after [Op_Insert 5; Op_Insert 2; Op_Insert 5; Op_Delete 2; Op_Delete 7] []
    = [[5]; [2; 5]; [2; 5]; [5]; [5]].
Proof. reflexivity. Qed.

(** Search agrees with membership on an ascending list. *)
Lemma Member_In (value : Z) (head : list Z) :
  ascending head = true -> (Member value head = 1 <-> In value head).
Proof.
  induction head as [|a l IH]; intros Hasc; cbn [Member].
  - split; [discriminate|intros []].
  - apply ascending_cons in Hasc as [Hal Hl].
    destruct (Z.ltb_spec a value) as [Hlt|Hge].
    + rewrite (IH Hl). split; [right; assumption|]. intros [->|H]; [lia|exact H].
    + destruct (Z.gtb_spec a value) as [Hgt|Hle].
      * split; [discriminate|]. intros [->|H]; [lia|].
        apply (below_all a l Hl Hal) in H. lia.
      * split; [|reflexivity]. intros _. left. lia.
Qed.

(** ** Ordering of [double]s *)

Ltac cmp_cases :=
  repeat match goal with
  | |- context [Z.compare ?a ?b] => destruct (Z.compare_spec a b)
  | |- context [Pos.compare_cont Eq ?a ?b] =>
      change (Pos.compare_cont Eq a b) with (Pos.compare a b);
      destruct (Pos.compare_spec a b)
  | H : context [Z.compare ?a ?b] |- _ => destruct (Z.compare_spec a b)
  | H : context [Pos.compare_cont Eq ?a ?b] |- _ =>
      change (Pos.compare_cont Eq a b) with (Pos.compare a b) in H;
      destruct (Pos.compare_spec a b)
  end.

(** [w < s] and [s <= t] give [w < t]; no NaN satisfies a premise. *)
Lemma dlt_dle_trans (w s t : double) :
  dlt w s = true -> dle s t = true -> dlt w t = true.
Proof.
  unfold dlt, dle, SFltb, SFleb.
  destruct w as [sw|sw| |sw mw ew], s as [ss|ss| |ss ms es]; cbn;
    try discriminate;
    destruct t as [st|st| |st mt et]; cbn; try discriminate;
    repeat match goal with b : bool |- _ => destruct b end; cbn;
    try discriminate; try reflexivity.
  all: intros H1 H2; cmp_cases; cbn in *; try discriminate; try reflexivity; try lia.
Qed.

Lemma dle_not_dlt (s w : double) : dle s w = true -> dlt w s = false.
Proof.
  unfold dlt, dle, SFltb, SFleb.
  destruct w as [sw|sw| |sw mw ew], s as [ss|ss| |ss ms es]; cbn;
    try discriminate; try reflexivity;
    repeat match goal with b : bool |- _ => destruct b end; cbn;
    try discriminate; try reflexivity.
  all: intros H1; cmp_cases; cbn in *; try discriminate; try reflexivity; try lia.
Qed.

(** ** The worker loop *)

Section WorkloadFacts.
Context {streams : RandomStreams}.

(** C9. In a pass of the loop with selector [which_op] and key [val]:
    [which_op < search_percent] runs [Member] between read lock and unlock
    and raises the search counter only; [search_percent <= which_op <
    search_percent + insert_percent] runs [Insert] between write lock and
    unlock and raises the insert counter only; and, the second threshold
    being no lower than the first, [which_op >= search_percent +
    insert_percent] runs [Delete] between write lock and unlock and raises
    the delete counter only. *)
Theorem classification (cfg : settings) (w : worker) (hd : list Z) :
  let which_op := fst (my_drand (seed w)) in
  let s1 := snd (my_drand (seed w)) in
  let val := fst (my_rand s1) mod MAX_KEY in
  let s2 := snd (my_rand s1) in
  let threshold := dadd (search_percent cfg) (insert_percent cfg) in
  (dlt which_op (search_percent cfg) = true ->
   loop_body cfg w hd =
     (Worker s2 (int_incr (i w)) (int_incr (my_member_count w))
        (my_insert_count w) (my_delete_count w),
      hd,
      [pthread_rwlock_rdlock; call_Member val; pthread_rwlock_unlock])) /\
  (dle (search_percent cfg) which_op = true -> dlt which_op threshold = true ->
   loop_body cfg w hd =
     (Worker s2 (int_incr (i w)) (my_member_count w)
        (int_incr (my_insert_count w)) (my_delete_count w),
      snd (Insert val hd),
      [pthread_rwlock_wrlock; call_Insert val; pthread_rwlock_unlock])) /\
  (dle (search_percent cfg) threshold = true -> dle threshold which_op = true ->
   loop_body cfg w hd =
     (Worker s2 (int_incr (i w)) (my_member_count w)
        (my_insert_count w) (int_incr (my_delete_count w)),
      snd (Delete val hd),
      [pthread_rwlock_wrlock; call_Delete val; pthread_rwlock_unlock])).
Proof.
  cbn zeta. unfold loop_body.
  destruct (my_drand (seed w)) as [which_op s1]; cbn [fst snd].
  destruct (my_rand s1) as [r s2]; cbn [fst snd].
  split; [|split].
  - intros ->. reflexivity.
  - intros H1 H2. rewrite (dle_not_dlt _ _ H1), H2. reflexivity.
  - intros H1 H2. pose proof (dle_not_dlt _ _ H2) as F. rewrite F.
    destruct (dlt which_op (search_percent cfg)) eqn:E; [|reflexivity].
    pose proof (dlt_dle_trans _ _ _ E H1) as T. congruence.
Qed.

End WorkloadFacts.

Lemma classification_witness :
  let cfg := Settings 2 10 half quarter quarter in
  @loop_body sample_streams cfg (Worker 1 0 0 0 0) [3; 5]
    = (Worker 1196210100 1 1 0 0, [3; 5],
       [pthread_rwlock_rdlock; call_Member 96210100; pthread_rwlock_unlock]) /\
  @loop_body sample_streams cfg (Worker 8 0 0 0 0) [3; 5]
    = (Worker 979746218 1 0 1 0, [3; 5; 79746218],
       [pthread_rwlock_wrlock; call_Insert 79746218; pthread_rwlock_unlock]) /\
  @loop_body sample_streams cfg (Worker 12 0 0 0 0) [3; 5]
    = (Worker 1469619327 1 0 0 1, [3; 5],
       [pthread_rwlock_wrlock; call_Delete 69619327; pthread_rwlock_unlock]).
Proof.
  pose proof (@classification sample_streams (Settings 2 10 half quarter quarter)
                (Worker 1 0 0 0 0) [3; 5]) as (Hsearch & _ & _).
  pose proof (@classification sample_streams (Settings 2 10 half quarter quarter)
                (Worker 8 0 0 0 0) [3; 5]) as (_ & Hinsert & _).
  pose proof (@classification sample_streams (Settings 2 10 half quarter quarter)
                (Worker 12 0 0 0 0) [3; 5]) as (_ & _ & Hdelete).
  cbv zeta. split; [|split].
  - etransitivity; [apply Hsearch; reflexivity | vm_compute; reflexivity].
  - etransitivity; [apply Hinsert; reflexivity | vm_compute; reflexivity].
  - etransitivity; [apply Hdelete; reflexivity | vm_compute; reflexivity].
Defined.

(** With the second threshold below the first (a negative insert fraction),
    a selector above it can still be a search. *)
Example thresholds_out_of_order :
  let minus_quarter := S754_finite true 4503599627370496 (-54) in
  let cfg := Settings 2 10 half minus_quarter three_quarters in
  dadd half minus_quarter = quarter /\
  dle quarter (fst (sample_drand 6)) = true /\
  snd (@loop_body sample_streams cfg (Worker 6 0 0 0 0) [])
    = [pthread_rwlock_rdlock; call_Member 82293309; pthread_rwlock_unlock].
Proof. vm_compute. repeat split. Qed.

(** ** Counters *)

Lemma returned_bounds (ths : list thread) : 0 <= returned ths <= Z.of_nat (length ths).
Proof.
  induction ths as [|[w|] ths IH]; cbn [returned length]; lia.
Qed.

Lemma returned_working (ths : list thread) (t : nat) (w : worker) :
  ths !! t = Some (Working w) -> returned ths + 1 <= Z.of_nat (length ths).
Proof.
  revert t. induction ths as [|th ths IH]; intros [|t] H; try discriminate.
  - injection H as ->. pose proof (returned_bounds ths). cbn [returned length]. lia.
  - specialize (IH t H). destruct th; cbn [returned length]; lia.
Qed.

Lemma returned_insert (ths : list thread) (t : nat) (w : worker) (th' : thread) :
  ths !! t = Some (Working w) ->
  returned (<[t := th']> ths)
    = returned ths + match th' with Returned => 1 | Working _ => 0 end.
Proof.
  revert t. induction ths as [|th ths IH]; intros [|t] H; try discriminate.
  - injection H as ->. destruct th'; cbn; lia.
  - change (<[S t := th']> (th :: ths)) with (th :: <[t := th']> ths).
    destruct th; cbn [returned]; rewrite (IH t H); lia.
Qed.

Lemma returned_all (ths : list thread) :
  forallb (fun th => match th with Returned => true | Working _ => false end) ths = true ->
  returned ths = Z.of_nat (length ths).
Proof.
  induction ths as [|[w|] ths IH]; cbn [forallb returned length]; intros H.
  - reflexivity.
  - discriminate.
  - rewrite (IH H). lia.
Qed.

Lemma returned_spawned (f : nat -> worker) (ranks : list nat) :
  returned (map (fun rank => Working (f rank)) ranks) = 0.
Proof. induction ranks as [|r ranks IH]; cbn; [reflexivity|exact IH]. Qed.

(** Truncating division of a count by a positive thread count. *)
Lemma ops_per_thread_bounds (cfg : settings) :
  0 < thread_count cfg -> 0 <= total_ops cfg ->
  0 <= ops_per_thread cfg /\ thread_count cfg * ops_per_thread cfg <= total_ops cfg.
Proof.
  intros Hn HT. unfold ops_per_thread. split.
  - apply Z.quot_pos; lia.
  - apply Z.mul_quot_le; lia.
Qed.

Section CounterFacts.
Context {streams : RandomStreams}.

(** A pass of the loop raises [i] and exactly one of the three counters. *)
Lemma loop_body_counts (cfg : settings) (w : worker) (hd : list Z) :
  let w' := fst (fst (loop_body cfg w hd)) in
  i w' = int_incr (i w) /\
  ((my_member_count w' = int_incr (my_member_count w) /\
    my_insert_count w' = my_insert_count w /\ my_delete_count w' = my_delete_count w) \/
   (my_member_count w' = my_member_count w /\
    my_insert_count w' = int_incr (my_insert_count w) /\ my_delete_count w' = my_delete_count w) \/
   (my_member_count w' = my_member_count w /\
    my_insert_count w' = my_insert_count w /\ my_delete_count w' = int_incr (my_delete_count w))).
Proof.
  unfold loop_body.
  destruct (my_drand (seed w)) as [which_op s1], (my_rand s1) as [r s2].
  destruct (dlt which_op (search_percent cfg)); [cbn; auto|].
  destruct (dlt which_op _); cbn; auto 6.
Qed.

Lemma advance_tallied (cfg : settings) (t : nat) (h : harness) :
  0 < thread_count cfg -> 0 <= total_ops cfg <= INT_MAX ->
  tallied cfg h -> tallied cfg (advance cfg t h).
Proof.
  intros Hn HT [Hths Hlen Hm Hi Hd Hsum].
  destruct (ops_per_thread_bounds cfg Hn ltac:(lia)) as [Hopt Hmul].
  unfold advance. destruct (threads h !! t) as [[w|]|] eqn:Ht;
    try (constructor; assumption).
  pose proof (Forall_lookup_1 _ _ _ _ Hths Ht) as (Hiw & Hmw & Hinw & Hdw & Hw).
  pose proof (returned_working _ _ _ Ht) as Hret.
  unfold Thread_work_stretch. destruct (Z.ltb_spec (i w) (ops_per_thread cfg)) as [Hlt|Hge].
  - pose proof (loop_body_counts cfg w (head (globals h))) as Hc.
    destruct (loop_body cfg w (head (globals h))) as [[w' hd'] acts].
    cbn [fst] in Hc. destruct Hc as [Hi' Hc].
    assert (Hmax : ops_per_thread cfg <= INT_MAX).
    { unfold INT_MAX in *. nia. }
    rewrite int_incr_exact in Hi' by (unfold INT_MIN, INT_MAX in *; lia).
    constructor; cbn [threads globals member_count insert_count delete_count];
      rewrite ?length_insert, ?(returned_insert _ _ _ _ Ht); try assumption; try lia.
    apply Forall_insert; [exact Hths|]. cbn [thread_ok].
    destruct Hc as [(E1 & E2 & E3)|[(E1 & E2 & E3)|(E1 & E2 & E3)]];
      rewrite int_incr_exact in * by (unfold INT_MIN, INT_MAX in *; lia); lia.
  - assert (Hroom : ops_per_thread cfg * (returned (threads h) + 1) <= INT_MAX).
    { unfold INT_MAX in *. nia. }
    assert (Hiw' : i w = ops_per_thread cfg) by lia.
    unfold merge, int_add.
    constructor; cbn [threads globals member_count insert_count delete_count];
      rewrite ?length_insert, ?(returned_insert _ _ _ _ Ht); try assumption.
    + apply Forall_insert; [exact Hths|exact I].
    + rewrite int_wrap_id by (unfold in_int, INT_MIN, INT_MAX in *; nia). lia.
    + rewrite int_wrap_id by (unfold in_int, INT_MIN, INT_MAX in *; nia). lia.
    + rewrite int_wrap_id by (unfold in_int, INT_MIN, INT_MAX in *; nia). lia.
    + rewrite !int_wrap_id by (unfold in_int, INT_MIN, INT_MAX in *; nia). nia.
Qed.

Lemma execute_tallied (cfg : settings) (sched : list nat) (h : harness) :
  0 < thread_count cfg -> 0 <= total_ops cfg <= INT_MAX ->
  tallied cfg h -> tallied cfg (execute cfg sched h).
Proof.
  intros Hn HT. revert h. unfold execute.
  induction sched as [|t sched IH]; intros h Hh; cbn [fold_left]; [exact Hh|].
  apply IH. apply advance_tallied; assumption.
Qed.

Lemma spawn_tallied (cfg : settings) (hd : list Z) :
  0 < thread_count cfg -> 0 <= total_ops cfg ->
  tallied cfg (Harness (Shared hd 0 0 0) (spawn cfg)).
Proof.
  intros Hn HT. destruct (ops_per_thread_bounds cfg Hn HT) as [Hopt _].
  unfold spawn. constructor; cbn [threads globals member_count insert_count delete_count];
    try lia.
  - apply Forall_map, Forall_forall. intros rank _. cbn. lia.
  - rewrite length_map, length_seq. lia.
  - rewrite returned_spawned. lia.
Qed.

(** C6. With a positive thread count and a non-negative operation count,
    once every thread has merged its counters and returned, the three shared
    totals add up to [thread_count * (total_ops / thread_count)], the division
    truncating; when the thread count divides the operation count this is
    [total_ops]. *)
Theorem counter_conservation (cfg : settings) (hd : list Z) (sched : list nat) :
  0 < thread_count cfg ->
  0 <= total_ops cfg <= INT_MAX ->
  let h := execute cfg sched (Harness (Shared hd 0 0 0) (spawn cfg)) in
  all_returned h = true ->
  member_count (globals h) + insert_count (globals h) + delete_count (globals h)
    = thread_count cfg * Z.quot (total_ops cfg) (thread_count cfg) /\
  (Z.rem (total_ops cfg) (thread_count cfg) = 0 ->
   member_count (globals h) + insert_count (globals h) + delete_count (globals h)
     = total_ops cfg).
Proof.
  intros Hn HT h Hall.
  destruct (execute_tallied cfg sched _ Hn HT (spawn_tallied cfg hd Hn ltac:(lia)))
    as [_ Hlen _ _ _ Hsum].
  fold h in Hlen, Hsum. unfold all_returned in Hall.
  rewrite (returned_all _ Hall), Hlen in Hsum. unfold ops_per_thread in Hsum.
  split; [lia|].
  intros Hrem. pose proof (Z.quot_rem' (total_ops cfg) (thread_count cfg)). lia.
Qed.

End CounterFacts.

(** ** Every thread can run to its return *)

Section Completion.
Context {streams : RandomStreams}.

Lemma execute_app (cfg : settings) (s1 s2 : list nat) (h : harness) :
  execute cfg (s1 ++ s2) h = execute cfg s2 (execute cfg s1 h).
Proof. unfold execute. apply fold_left_app. Qed.

(** A thread with [k] passes left returns after [k + 1] stretches of its
    own, whatever list it meets; the other threads are not touched. *)
Lemma run_to_return (cfg : settings) (t k : nat) :
  ops_per_thread cfg <= INT_MAX ->
  forall (w : worker) (sh : shared) (ths : list thread),
    ths !! t = Some (Working w) ->
    0 <= i w ->
    i w + Z.of_nat k = ops_per_thread cfg ->
    exists sh',
      execute cfg (replicate (S k) t) (Harness sh ths) = Harness sh' (<[t := Returned]> ths).
Proof.
  intros Hmax. induction k as [|k IH]; intros w sh ths Ht Hi Hk.
  - exists (merge w sh). cbn. unfold advance. cbn [threads globals]. rewrite Ht.
    unfold Thread_work_stretch.
    destruct (Z.ltb_spec (i w) (ops_per_thread cfg)); [lia|reflexivity].
  - change (replicate (S (S k)) t) with ([t] ++ replicate (S k) t).
    rewrite execute_app. cbn [execute fold_left]. unfold advance at 1.
    cbn [threads globals]. rewrite Ht. unfold Thread_work_stretch.
    destruct (Z.ltb_spec (i w) (ops_per_thread cfg)); [|lia].
    pose proof (loop_body_counts cfg w (head sh)) as [Hi' _].
    destruct (loop_body cfg w (head sh)) as [[w' hd'] acts]. cbn [fst] in Hi'.
    rewrite int_incr_exact in Hi' by (unfold INT_MIN, INT_MAX in *; lia).
    destruct (IH w' (Shared hd' (member_count sh) (insert_count sh) (delete_count sh))
                (<[t := Working w']> ths)) as [sh' Hrun].
    + apply list_lookup_insert_eq. eapply lookup_lt_Some. exact Ht.
    + lia.
    + lia.
    + exists sh'. rewrite Hrun. rewrite list_insert_insert_eq. reflexivity.
Qed.

Lemma one_by_one_from (cfg : settings) (ths done : list thread) (sh : shared) :
  0 <= ops_per_thread cfg <= INT_MAX ->
  Forall (fun th => exists w, th = Working w /\ i w = 0) ths ->
  exists sh',
    execute cfg
      (flat_map (fun t => replicate (S (Z.to_nat (ops_per_thread cfg))) t)
                (seq (length done) (length ths)))
      (Harness sh (done ++ ths))
    = Harness sh' (done ++ map (fun _ => Returned) ths).
Proof.
  intros Hopt. revert done sh.
  induction ths as [|th ths IH]; intros done sh Hall.
  - exists sh. reflexivity.
  - apply Forall_cons in Hall as [(w & -> & Hw) Hall].
    cbn [length seq flat_map]. rewrite execute_app.
    destruct (run_to_return cfg (length done) (Z.to_nat (ops_per_thread cfg))
                ltac:(lia) w sh (done ++ Working w :: ths)) as [sh1 Hrun].
    + apply list_lookup_middle. reflexivity.
    + lia.
    + lia.
    + rewrite Hrun.
      replace (<[length done := Returned]> (done ++ Working w :: ths))
        with ((done ++ [Returned]) ++ ths).
      2:{ rewrite insert_app_r_alt by lia. rewrite Nat.sub_diag.
          rewrite <- app_assoc. reflexivity. }
      destruct (IH (done ++ [Returned]) sh1 Hall) as [sh' Hrest].
      rewrite length_app in Hrest. cbn [length] in Hrest.
      rewrite Nat.add_1_r in Hrest.
      exists sh'. rewrite Hrest. rewrite <- app_assoc. reflexivity.
Qed.

(** Run one after the other, all threads return. *)
Lemma one_by_one_completes (cfg : settings) (sh : shared) :
  0 < thread_count cfg -> 0 <= total_ops cfg <= INT_MAX ->
  all_returned (execute cfg (one_by_one cfg) (Harness sh (spawn cfg))) = true.
Proof.
  intros Hn HT. destruct (ops_per_thread_bounds cfg Hn ltac:(lia)) as [Hopt Hmul].
  assert (Hmax : ops_per_thread cfg <= INT_MAX) by (unfold INT_MAX in *; nia).
  destruct (one_by_one_from cfg (spawn cfg) [] sh ltac:(lia)) as [sh' Hrun].
  - unfold spawn. apply Forall_map, Forall_forall. intros rank _.
    eexists. split; reflexivity.
  - unfold one_by_one.
    replace (Z.to_nat (thread_count cfg)) with (length (spawn cfg))
      by (unfold spawn; rewrite length_map, length_seq; reflexivity).
    cbn [length app] in Hrun. rewrite Hrun. unfold all_returned. cbn [threads].
    clear Hrun. induction (spawn cfg) as [|th ths IH]; [reflexivity|exact IH].
Qed.

End Completion.

Lemma counter_conservation_witness :
  let cfg := Settings 3 12 half quarter quarter in
  let h := @execute sample_streams cfg [0; 1; 2; 2; 1; 0; 0; 1; 2; 2; 1; 0; 1; 0; 2]%nat
             (Harness (Shared [5; 9] 0 0 0) (spawn cfg)) in
  member_count (globals h) + insert_count (globals h) + delete_count (globals h)
    = 3 * Z.quot 12 3 /\
  member_count (globals h) + insert_count (globals h) + delete_count (globals h) = 12.
Proof.
  assert (H1 : 0 < thread_count (Settings 3 12 half quarter quarter)) by reflexivity.
  assert (H2 : 0 <= total_ops (Settings 3 12 half quarter quarter) <= INT_MAX)
    by (cbn [total_ops]; unfold INT_MAX; lia).
  assert (H3 : all_returned
                 (@execute sample_streams (Settings 3 12 half quarter quarter)
                    [0; 1; 2; 2; 1; 0; 0; 1; 2; 2; 1; 0; 1; 0; 2]%nat
                    (Harness (Shared [5; 9] 0 0 0) (spawn (Settings 3 12 half quarter quarter))))
               = true) by (vm_compute; reflexivity).
  destruct (@counter_conservation sample_streams (Settings 3 12 half quarter quarter) [5; 9]
              [0; 1; 2; 2; 1; 0; 0; 1; 2; 2; 1; 0; 1; 0; 2]%nat H1 H2 H3) as [Hsum Hdiv].
  split; [exact Hsum|]. apply Hdiv. reflexivity.
Defined.

(** Outside the domain of counts nothing is executed: a negative operation
    count leaves the totals at 0. *)
Example negative_total_ops :
  let cfg := Settings 2 (-4) half quarter quarter in
  globals (@execute sample_streams cfg (one_by_one cfg) (Harness (Shared [] 0 0 0) (spawn cfg)))
    = Shared [] 0 0 0 /\
  thread_count cfg * Z.quot (total_ops cfg) (thread_count cfg) = -4.
Proof. vm_compute. split; reflexivity. Qed.

(** ** The process *)

Section ProcessFacts.
Context {streams : RandomStreams}.

(** The filling loop is left by its own condition, not by lack of fuel. *)
Lemma fill_exits (n : Z) (fuel : nat) (filled attempts sd : Z) (hd : list Z) :
  0 <= attempts ->
  int_wrap (2 * n) <= attempts + Z.of_nat fuel ->
  let '(filled', attempts', _, _) := fill fuel n (filled, attempts, sd, hd) in
  (filled' <? n) && (attempts' <? int_wrap (2 * n)) = false.
Proof.
  revert filled attempts sd hd.
  induction fuel as [|fuel IH]; intros filled attempts sd hd Ha Hb; cbn [fill].
  - replace (attempts <? int_wrap (2 * n)) with false by (symmetry; apply Z.ltb_ge; lia).
    apply andb_false_r.
  - destruct ((filled <? n) && (attempts <? int_wrap (2 * n))) eqn:E; [|exact E].
    apply andb_true_iff in E as [_ E]. apply Z.ltb_lt in E.
    assert (Hw : int_wrap (2 * n) <= INT_MAX).
    { unfold int_wrap, INT_MAX.
      pose proof (Z.mod_pos_bound (2 * n + 2147483648) 4294967296 ltac:(lia)). lia. }
    destruct (my_rand sd) as [r sd'].
    destruct (Insert (r mod MAX_KEY) hd) as [success hd'].
    apply IH; rewrite int_incr_exact by (unfold INT_MIN, INT_MAX in *; lia); lia.
Qed.

Lemma main_fill_exits (n : Z) :
  let '(filled, attempts, _, _) :=
    fill (Z.to_nat (int_wrap (2 * n))) n (0, 0, 1, []) in
  (filled <? n) && (attempts <? int_wrap (2 * n)) = false.
Proof. apply fill_exits; lia. Qed.

(** C5, amended.  [main] ends with status 0 whenever it ends by returning
    or exiting; with a wrong argument count it writes the usage line to the
    error stream and terminates before reading or running anything; when
    [malloc] returns no memory for the handles of a positive number of
    threads, no message is written and the process does not exit in order;
    and with memory, a positive thread count and a non-negative operation
    count, the run in which the threads take turns completes with status 0
    and an empty error stream. *)
Theorem main_outcomes (argc : Z) (prog_name : string) (strtol_arg : Z) (input : stdin)
    (handles_allocated : bool) (sched : list nat) :
  (forall status err out,
     main argc prog_name strtol_arg input handles_allocated sched = Exit status err out ->
     status = 0) /\
  (argc <> 2 ->
   main argc prog_name strtol_arg input handles_allocated sched
     = Exit 0 [usage_message prog_name] []) /\
  (argc = 2 -> handles_allocated = false -> 0 < int_wrap strtol_arg ->
   exists out,
     main argc prog_name strtol_arg input handles_allocated sched = Null_dereference out) /\
  (argc = 2 -> handles_allocated = true ->
   0 < int_wrap strtol_arg -> 0 <= read_total_ops input <= INT_MAX ->
   exists out,
     main argc prog_name strtol_arg input handles_allocated
          (one_by_one (snd (Get_input (int_wrap strtol_arg) input)))
       = Exit 0 [] out).
Proof.
  unfold main. split; [|split; [|split]].
  - intros status err out.
    destruct (argc =? 2); cbn [negb]; [|intros [= <- _ _]; reflexivity].
    destruct (Get_input _ _) as [inserts cfg].
    destruct (fill _ _ _) as [[[filled attempts] sd] hd].
    destruct (_ && _); [discriminate|].
    destruct (all_returned _); [|discriminate].
    intros [= <- _ _]. reflexivity.
  - intros Hargc. destruct (Z.eqb_spec argc 2); [contradiction|reflexivity].
  - intros -> -> Hn. cbn [Z.eqb Pos.eqb negb].
    unfold Get_input. cbn [thread_count].
    destruct (fill _ _ _) as [[[filled attempts] sd] hd].
    replace (0 <? int_wrap strtol_arg) with true by (symmetry; apply Z.ltb_lt; exact Hn).
    eexists. reflexivity.
  - intros -> -> Hn HT. cbn [Z.eqb Pos.eqb negb].
    unfold Get_input. cbn [thread_count snd].
    destruct (fill _ _ _) as [[[filled attempts] sd] hd].
    rewrite andb_false_r.
    rewrite one_by_one_completes by assumption.
    eexists. reflexivity.
Qed.

End ProcessFacts.

(** C5, as stated, fails: started without its argument the process writes
    the usage line and exits with status 0; and when the handles cannot be
    allocated it writes nothing to the error stream and does not exit. *)
Lemma invalid_invocation_exits_zero :
  @main sample_streams 1 "test_pthread" 0 (Stdin 0 0 half quarter) true []
    = Exit 0 [usage_message "test_pthread"] [] /\
  @main sample_streams 2 "test_pthread" 4 (Stdin 0 8 half quarter) false [0; 1; 2; 3]%nat
    = Null_dereference (prompts ++ [Inserted_keys 0]).
Proof. split; reflexivity. Qed.

Lemma main_outcomes_witness :
  @main sample_streams 1 "test_pthread" 0 (Stdin 0 0 half quarter) true []
    = Exit 0 [usage_message "test_pthread"] [] /\
  (exists out,
     @main sample_streams 2 "test_pthread" 2 (Stdin 3 6 half quarter) false []
       = Null_dereference out) /\
  (exists out,
     @main sample_streams 2 "test_pthread" 2 (Stdin 3 6 half quarter) true
        (one_by_one (snd (Get_input (int_wrap 2) (Stdin 3 6 half quarter))))
       = Exit 0 [] out).
Proof.
  split; [|split].
  - apply (@main_outcomes sample_streams 1 "test_pthread" 0 (Stdin 0 0 half quarter) true []).
    discriminate.
  - apply (@main_outcomes sample_streams 2 "test_pthread" 2 (Stdin 3 6 half quarter) false []);
      reflexivity.
  - apply (@main_outcomes sample_streams 2 "test_pthread" 2 (Stdin 3 6 half quarter) true []).
    + reflexivity.
    + reflexivity.
    + reflexivity.
    + cbn [read_total_ops]. unfold INT_MAX. lia.
Defined.

Example main_run :
  @main sample_streams 2 "test_pthread" 2 (Stdin 3 10 half quarter) true
     [0; 1; 1; 0; 0; 1; 0; 1; 1; 0; 0; 1]%nat
    = Exit 0 []
        (prompts ++ [Inserted_keys 3; Elapsed_time; Total_ops 10;
                     Member_ops 6; Insert_ops 1; Delete_ops 3]).
Proof. vm_compute. reflexivity. Qed.

(** * Further properties of the code *)

(** ** Initialisation and destruction *)

Ltac balance_cases :=
  intros [|[|]]; cbn;
  repeat match goal with
  | E : ?x = 0 |- context [?x =? 0] => rewrite E; cbn
  | E : ?x <> 0 |- context [?x =? 0] =>
      destruct (Z.eqb_spec x 0); [contradiction|]; cbn
  end;
  reflexivity.

(** X1. [my_rwlock_init] on a non-null handle either succeeds, returning 0
    with the four fields zeroed and each of the three platform objects
    initialised once, or fails, returning the nonzero code of the
    initialisation that failed, with the fields as they were and a
    destruction called for every object initialised before it. *)
Theorem init_all_or_nothing (P : platform) (l : my_rwlock_t) :
  let '(rc, l', _) := run (my_rwlock_init ADDR) P l in
  let tr := calls (my_rwlock_init ADDR) P l in
  (rc = 0 /\ l' = fresh_lock /\ forall o, balance o tr = 1) \/
  (rc <> 0 /\ l' = l /\ (forall o, balance o tr = 0) /\
   exists k p, (k < 3)%nat /\ tr !! k = Some (p, rc) /\
               forall j q c, (j < k)%nat -> tr !! j = Some (q, c) -> c = 0).
Proof.
  unfold run, calls, my_rwlock_init, bind, call, modify, ret. cbn.
  destruct (Z.eqb_spec (reports P 0%nat pthread_mutex_init) 0) as [E0|E0]; cbn.
  2:{ right. repeat split; [exact E0| |].
      - balance_cases.
      - exists 0%nat. eexists. split; [lia|]. split; [reflexivity|]. intros; lia. }
  destruct (Z.eqb_spec (reports P 1%nat (pthread_cond_init readers_cv)) 0) as [E1|E1]; cbn.
  2:{ right. repeat split; [exact E1| |].
      - balance_cases.
      - exists 1%nat. eexists. split; [lia|]. split; [reflexivity|].
        intros [|j] q c Hj; [|lia]. intros [= <- <-]. exact E0. }
  destruct (Z.eqb_spec (reports P 2%nat (pthread_cond_init writers_cv)) 0) as [E2|E2]; cbn.
  2:{ right. repeat split; [exact E2| |].
      - balance_cases.
      - exists 2%nat. eexists. split; [lia|]. split; [reflexivity|].
        intros [|[|j]] q c Hj; [| |lia]; intros [= <- <-]; assumption. }
  left. repeat split. balance_cases.
Qed.

(** X2. [my_rwlock_destroy] never touches the fields.  It attempts the
    destructions in order (mutex, readers' condition variable, writers'),
    stops at the first one that reports a nonzero code and returns that code,
    leaving the later objects undestroyed; it returns 0 only after all three
    have reported 0. *)
Theorem destroy_stops_at_failure (P : platform) (l : my_rwlock_t) :
  let '(rc, l', ps) := run (my_rwlock_destroy ADDR) P l in
  let tr := calls (my_rwlock_destroy ADDR) P l in
  l' = l /\
  exists k, (k < 3)%nat /\ ps = take (S k) teardown /\
    (forall j q c, (j < k)%nat -> tr !! j = Some (q, c) -> c = 0) /\
    (exists q, tr !! k = Some (q, rc)) /\
    (rc = 0 -> k = 2%nat).
Proof.
  unfold run, calls, my_rwlock_destroy, bind, call, ret. cbn.
  destruct (Z.eqb_spec (reports P 0%nat pthread_mutex_destroy) 0) as [E0|E0]; cbn.
  2:{ split; [reflexivity|]. exists 0%nat.
      split; [lia|]. split; [reflexivity|]. split; [intros; lia|].
      split; [eexists; reflexivity|]. intros H. contradiction. }
  destruct (Z.eqb_spec (reports P 1%nat (pthread_cond_destroy readers_cv)) 0) as [E1|E1]; cbn.
  2:{ split; [reflexivity|]. exists 1%nat.
      split; [lia|]. split; [reflexivity|]. split.
      { intros [|j] q c Hj; [|lia]. intros [= <- <-]. exact E0. }
      split; [eexists; reflexivity|]. intros H. contradiction. }
  assert (Hprev : forall c0 j q c, (j < 2)%nat ->
            [(pthread_mutex_destroy, reports P 0%nat pthread_mutex_destroy);
             (pthread_cond_destroy readers_cv, reports P 1%nat (pthread_cond_destroy readers_cv));
             (pthread_cond_destroy writers_cv, c0)]
              !! j = Some (q, c) -> c = 0).
  { intros c0 [|[|j]] q c Hj; [| |lia]; intros [= <- <-]; assumption. }
  destruct (Z.eqb_spec (reports P 2%nat (pthread_cond_destroy writers_cv)) 0) as [E2|E2]; cbn.
  - split; [reflexivity|]. exists 2%nat.
    split; [lia|]. split; [reflexivity|]. split; [apply Hprev|].
    split; [|reflexivity]. eexists. rewrite E2. reflexivity.
  - split; [reflexivity|]. exists 2%nat.
    split; [lia|]. split; [reflexivity|]. split; [apply Hprev|].
    split; [eexists; reflexivity|]. intros H. contradiction.
Qed.

(** A null handle is turned away by both with EINVAL and nothing done. *)
Lemma init_destroy_null (P : platform) (l : my_rwlock_t) :
  run (my_rwlock_init NULL) P l = (EINVAL, l, []) /\
  run (my_rwlock_destroy NULL) P l = (EINVAL, l, []).
Proof. split; reflexivity. Qed.

(** ** Acquire, then release *)

Lemma int_decr_incr (x : Z) : in_int x -> int_decr (int_incr x) = x.
Proof.
  unfold in_int, INT_MIN, INT_MAX, int_decr, int_incr, int_wrap. intros H.
  destruct (Z.eq_dec x 2147483647) as [->|Hne]; [reflexivity|].
  rewrite (Z.mod_small (x + 1 + 2147483648)) by lia.
  rewrite Z.mod_small by lia. lia.
Qed.

(** X3. An acquisition that is let in at once, followed by a release, puts
    the four fields back as they were: a read lock taken with no writer
    active or waiting, and a write lock taken with no reader and no writer
    inside.  Both calls return 0. *)
Theorem acquire_release_restores (P : platform) (l : my_rwlock_t) (n : nat) :
  in_int (active_readers l) -> in_int (waiting_readers l) -> in_int (waiting_writers l) ->
  (rd_blocked l = false ->
   run (r <- my_rwlock_rdlock ADDR n ;; u <- my_rwlock_unlock ADDR ;; ret (r, u)) P l
     = (Some 0, 0, l,
        [pthread_mutex_lock; pthread_mutex_unlock; pthread_mutex_lock]
          ++ (if active_readers l =? 0 then wake_policy l else [])
          ++ [pthread_mutex_unlock])) /\
  (wr_blocked l = false ->
   run (r <- my_rwlock_wrlock ADDR n ;; u <- my_rwlock_unlock ADDR ;; ret (r, u)) P l
     = (Some 0, 0, l,
        [pthread_mutex_lock; pthread_mutex_unlock; pthread_mutex_lock]
          ++ wake_policy l ++ [pthread_mutex_unlock])).
Proof.
  intros Har Hwr Hww. destruct l as [ar wr ww wa]. cbn in Har, Hwr, Hww.
  unfold rd_blocked, wr_blocked. cbn [writer_active waiting_writers active_readers].
  split; intros Hb; apply orb_false_iff in Hb as [H1 H2].
  - subst wa. unfold run, my_rwlock_rdlock, bind, call, modify. cbn [obj trace is_wait].
    rewrite wait_while_clear
      by (unfold rd_blocked; cbn; rewrite H2; reflexivity).
    unfold my_rwlock_unlock, wake_next, bind, call, field, modify, ret.
    unfold upd_active_readers, upd_waiting_readers. cbn.
    rewrite !int_decr_incr by assumption.
    unfold wake_policy. cbn.
    destruct (ar =? 0); cbn; [|reflexivity].
    destruct (0 <? ww); cbn; [reflexivity|].
    destruct (0 <? wr); cbn; reflexivity.
  - subst wa. unfold run, my_rwlock_wrlock, bind, call, modify. cbn [obj trace is_wait].
    rewrite wait_while_clear
      by (unfold wr_blocked; cbn; rewrite H1; reflexivity).
    unfold my_rwlock_unlock, wake_next, bind, call, field, modify, ret.
    unfold upd_waiting_writers, set_writer_active. cbn.
    rewrite !int_decr_incr by assumption.
    unfold wake_policy. cbn.
    destruct (0 <? ww); cbn; [reflexivity|].
    destruct (0 <? wr); cbn; reflexivity.
Qed.

Lemma acquire_release_restores_witness :
  run (r <- my_rwlock_rdlock ADDR 0 ;; u <- my_rwlock_unlock ADDR ;; ret (r, u))
      broken (Rwlock 1 2 0 false)
    = (Some 0, 0, Rwlock 1 2 0 false,
       [pthread_mutex_lock; pthread_mutex_unlock; pthread_mutex_lock; pthread_mutex_unlock]) /\
  run (r <- my_rwlock_wrlock ADDR 0 ;; u <- my_rwlock_unlock ADDR ;; ret (r, u))
      broken (Rwlock 0 2 0 false)
    = (Some 0, 0, Rwlock 0 2 0 false,
       [pthread_mutex_lock; pthread_mutex_unlock; pthread_mutex_lock;
        pthread_cond_broadcast readers_cv; pthread_mutex_unlock]).
Proof.
  assert (H : forall z, -3 < z < 3 -> in_int z) by (unfold in_int, INT_MIN, INT_MAX; lia).
  split.
  - apply (acquire_release_restores broken (Rwlock 1 2 0 false) 0);
      first [apply H; cbn; lia | reflexivity].
  - apply (acquire_release_restores broken (Rwlock 0 2 0 false) 0);
      first [apply H; cbn; lia | reflexivity].
Defined.

(** ** Holders and waiters *)




(** X5. Writer preference.  Under the same discipline, while some writer is
    parked no thread becomes a reader: a thread that asks for the read lock
    parks, and a parked reader that wakes parks again. *)
Theorem parked_writer_bars_readers (n t w : nat) (r : request) (s s' : system) :
  Z.of_nat n <= INT_MAX -> reachable n s ->
  pool s !! w = Some ParkedW ->
  fire t r s = Some s' ->
  pool s !! t <> Some Reading ->
  pool s' !! t <> Some Reading /\
  (r = Rdlock -> pool s' !! t = Some ParkedR) /\
  (pool s !! t = Some ParkedR -> pool s' !! t = Some ParkedR).
Proof.
  intros Hn Hreach Hw Hf Hst.
  destruct (reachable_accounted n s Hn Hreach) as [Hlen Har Hwr Hww Hwa Hex].
  pose proof (census_present _ _ _ Hw) as Hone.
  destruct (fire_inv t r s s' Hf) as (st & st' & Ht & Hseg & Hpool).
  assert (Ht' : pool s' !! t = Some st').
  { rewrite Hpool. apply list_lookup_insert_eq. eapply lookup_lt_Some. exact Ht. }
  rewrite Ht' , Ht in *.
  assert (Hblocked : rd_blocked (lk s) = true /\ rd_blocked (rdlock_enter (lk s)) = true).
  { unfold rd_blocked, rdlock_enter. cbn [writer_active waiting_writers upd_waiting_readers].
    replace (0 <? waiting_writers (lk s)) with true by (symmetry; apply Z.ltb_lt; lia).
    rewrite orb_true_r. auto. }
  destruct Hblocked as [Hb1 Hb2].
  destruct r, st; cbn in Hseg; try discriminate; rewrite ?Hb1, ?Hb2 in Hseg;
    repeat match type of Hseg with
    | context [if ?b then _ else _] => destruct b
    end;
    injection Hseg as Hst' _; subst st';
    repeat split; try discriminate; try congruence.
Qed.

Lemma parked_writer_bars_readers_witness :
  let s' := System (Rwlock 1 1 1 false) [Reading; ParkedW; ParkedR] in
  pool s' !! 2%nat <> Some Reading /\
  (Rdlock = Rdlock -> pool s' !! 2%nat = Some ParkedR) /\
  (Some Idle = Some ParkedR -> pool s' !! 2%nat = Some ParkedR).
Proof.
  apply (parked_writer_bars_readers 3 2 1 Rdlock
           (System (Rwlock 1 0 1 false) [Reading; ParkedW; Idle])
           (System (Rwlock 1 1 1 false) [Reading; ParkedW; ParkedR])).
  - unfold INT_MAX. lia.
  - exists [(0%nat, Rdlock); (1%nat, Wrlock)]. reflexivity.
  - reflexivity.
  - reflexivity.
  - discriminate.
Defined.

(** ** No lost wake-up *)
























(** The run of the witness continued: the woken writer is admitted, and its
    release, finding no writer waiting, broadcasts to the reader. *)
Example writer_then_readers :
  wplay [Runs 0 Rdlock 0; Runs 1 Wrlock 0; Runs 2 Rdlock 0; Runs 0 Unlock 1;
         Runs 1 Wakeup 0; Runs 1 Unlock 0; Runs 2 Wakeup 0] (wboot 3)
    = Some (WSystem (Rwlock 1 0 0 false) [Out; Out; InR]).
Proof. reflexivity. Qed.

(** ** The list as a set of keys *)

(** Both return values are what [Member] says, on any list: the three
    functions walk the list the same way. *)
Lemma Insert_rv (value : Z) (l : list Z) : fst (Insert value l) = 1 - Member value l.
Proof.
  induction l as [|a l IH]; cbn [Insert Member]; [reflexivity|].
  destruct (a <? value); [destruct (Insert value l); exact IH|].
  destruct (a >? value); reflexivity.
Qed.

Lemma Delete_rv (value : Z) (l : list Z) : fst (Delete value l) = Member value l.
Proof.
  induction l as [|a l IH]; cbn [Delete Member]; [reflexivity|].
  destruct (Z.ltb_spec a value); [destruct (Delete value l); exact IH|].
  destruct (Z.eqb_spec a value) as [->|Hne].
  - rewrite Z.gtb_ltb, Z.ltb_irrefl. reflexivity.
  - destruct (Z.gtb_spec a value); [reflexivity|lia].
Qed.

Lemma Member_bit (value : Z) (l : list Z) : Member value l = 0 \/ Member value l = 1.
Proof.
  induction l as [|a l IH]; cbn [Member]; [auto|].
  destruct (a <? value); [exact IH|]. destruct (a >? value); auto.
Qed.

Lemma Insert_In (value x : Z) (l : list Z) :
  In x (snd (Insert value l)) <-> x = value \/ In x l.
Proof.
  induction l as [|a l IH]; cbn [Insert].
  - cbn. split; [intros [->|[]]; auto|intros [->|[]]; auto].
  - destruct (Z.ltb_spec a value).
    + destruct (Insert value l) as [rv l']. cbn [snd] in *. cbn [In]. rewrite IH.
      split; [intros [->|[->|Hx]]; auto|intros [->|[->|Hx]]; auto].
    + destruct (Z.gtb_spec a value); cbn [snd In].
      * split; [intros [->|[->|Hx]]; auto|intros [->|[->|Hx]]; auto].
      * assert (a = value) by lia. subst a.
        split; [intros [->|Hx]; auto|intros [->|[->|Hx]]; auto].
Qed.

Lemma Delete_In (value x : Z) (l : list Z) :
  ascending l = true -> In x (snd (Delete value l)) <-> In x l /\ x <> value.
Proof.
  induction l as [|a l IH]; intros Hasc; cbn [Delete].
  - cbn. split; [intros []|intros [[] _]].
  - apply ascending_cons in Hasc as [Hal Hl]. specialize (IH Hl).
    pose proof (below_all a l Hl Hal) as Hall.
    destruct (Z.ltb_spec a value).
    + destruct (Delete value l) as [rv l']. cbn [snd] in *. cbn [In]. rewrite IH.
      split; [intros [->|[Hx Hne]]; [split; [auto|lia]|auto]|].
      intros [[->|Hx] Hne]; auto.
    + destruct (Z.eqb_spec a value) as [->|Hne]; cbn [snd In].
      * split; [intros Hx; split; [auto|]; apply Hall in Hx; lia|].
        intros [[->|Hx] Hneq]; [congruence|exact Hx].
      * split; [|tauto]. intros [->|Hx]; [split; [auto|lia]|].
        split; [auto|]. apply Hall in Hx. lia.
Qed.

Lemma Insert_length (value : Z) (l : list Z) :
  Z.of_nat (length (snd (Insert value l))) = Z.of_nat (length l) + fst (Insert value l).
Proof.
  induction l as [|a l IH]; cbn [Insert]; [reflexivity|].
  destruct (a <? value).
  - destruct (Insert value l) as [rv l']. cbn [fst snd length] in *. lia.
  - destruct (a >? value); cbn [fst snd length]; lia.
Qed.

Lemma Delete_length (value : Z) (l : list Z) :
  Z.of_nat (length (snd (Delete value l))) = Z.of_nat (length l) - fst (Delete value l).
Proof.
  induction l as [|a l IH]; cbn [Delete]; [reflexivity|].
  destruct (a <? value).
  - destruct (Delete value l) as [rv l']. cbn [fst snd length] in *. lia.
  - destruct (a =? value); cbn [fst snd length]; lia.
Qed.

(** Two strictly ascending lists with the same keys are the same list. *)
Lemma ascending_ext (l1 l2 : list Z) :
  ascending l1 = true -> ascending l2 = true ->
  (forall x, In x l1 <-> In x l2) -> l1 = l2.
Proof.
  revert l2. induction l1 as [|a l1 IH]; intros [|b l2] H1 H2 Hin.
  - reflexivity.
  - exfalso. apply (Hin b). left. reflexivity.
  - exfalso. apply (Hin a). left. reflexivity.
  - apply ascending_cons in H1 as [Ha1 Hl1]. apply ascending_cons in H2 as [Hb2 Hl2].
    pose proof (below_all a l1 Hl1 Ha1) as A1. pose proof (below_all b l2 Hl2 Hb2) as A2.
    assert (a = b).
    { destruct (proj1 (Hin a) (or_introl eq_refl)) as [->|Ha]; [reflexivity|].
      destruct (proj2 (Hin b) (or_introl eq_refl)) as [->|Hb]; [reflexivity|].
      apply A2 in Ha. apply A1 in Hb. lia. }
    subst b. f_equal. apply IH; [assumption|assumption|].
    intros x. split; intros Hx.
    + destruct (proj1 (Hin x) (or_intror Hx)) as [->|H]; [|exact H].
      apply A1 in Hx. lia.
    + destruct (proj2 (Hin x) (or_intror Hx)) as [->|H]; [|exact H].
      apply A2 in Hx. lia.
Qed.

(** X7. On any list [Insert] returns 1 exactly when [Member] returns 0, and
    [Delete] returns what [Member] returns; the length grows by what [Insert]
    returns and shrinks by what [Delete] returns; and a [Delete] that returns
    0 leaves the list as it was. *)
Theorem return_values_agree (value : Z) (l : list Z) :
  fst (Insert value l) = 1 - Member value l /\
  fst (Delete value l) = Member value l /\
  (Member value l = 0 \/ Member value l = 1) /\
  Z.of_nat (length (snd (Insert value l))) = Z.of_nat (length l) + fst (Insert value l) /\
  Z.of_nat (length (snd (Delete value l))) = Z.of_nat (length l) - fst (Delete value l) /\
  (fst (Delete value l) = 0 -> snd (Delete value l) = l).
Proof.
  repeat split; [apply Insert_rv | apply Delete_rv | apply Member_bit
                 | apply Insert_length | apply Delete_length |].
  induction l as [|a l IH]; cbn [Delete]; [reflexivity|].
  destruct (a <? value).
  - destruct (Delete value l) as [rv l']. cbn [fst snd] in *. intros H. rewrite (IH H).
    reflexivity.
  - destruct (a =? value); cbn [fst snd]; [discriminate|reflexivity].
Qed.

Lemma return_values_agree_witness : snd (Delete 4 [2; 5; 9]) = [2; 5; 9].
Proof.
  apply (return_values_agree 4 [2; 5; 9]). reflexivity.
Defined.

Lemma Member_Insert_same (value : Z) (l : list Z) :
  ascending l = true -> Member value (snd (Insert value l)) = 1.
Proof.
  intros Hasc. apply (Member_In _ _ (Insert_ascending value l Hasc)).
  apply Insert_In. auto.
Qed.

Lemma Member_Delete_same (value : Z) (l : list Z) :
  ascending l = true -> Member value (snd (Delete value l)) = 0.
Proof.
  intros Hasc.
  destruct (Member_bit value (snd (Delete value l))) as [E|E]; [exact E|].
  apply (Member_In _ _ (Delete_ascending value l Hasc)) in E.
  apply (Delete_In _ _ _ Hasc) in E. tauto.
Qed.

(** X12. On a strictly ascending list [Member] returns 1 for the keys of
    the list and 0 for every other value. *)
Theorem Member_finds_keys (value : Z) (l : list Z) :
  ascending l = true ->
  (In value l -> Member value l = 1) /\ (~ In value l -> Member value l = 0).
Proof.
  intros Hasc. pose proof (Member_In value l Hasc) as HM. split.
  - apply HM.
  - intros Hn. destruct (Member_bit value l) as [E|E]; [exact E|].
    apply HM in E. contradiction.
Qed.

Lemma Member_finds_keys_witness : Member 5 [2; 5; 9] = 1 /\ Member 6 [2; 5; 9] = 0.
Proof.
  destruct (Member_finds_keys 5 [2; 5; 9] eq_refl) as [H5 _].
  destruct (Member_finds_keys 6 [2; 5; 9] eq_refl) as [_ H6].
  split; [apply H5; right; left; reflexivity|].
  apply H6. cbn. intros [H|[H|[H|[]]]]; discriminate.
Defined.

(** X8. On a strictly ascending list, after [Insert] the keys are the old
    ones and the new one, the new key is found by [Member], and every other
    key is found exactly if it was found before. *)
Theorem Insert_then_Member (value : Z) (l : list Z) :
  ascending l = true ->
  (forall x, In x (snd (Insert value l)) <-> x = value \/ In x l) /\
  Member value (snd (Insert value l)) = 1 /\
  (forall x, x <> value -> Member x (snd (Insert value l)) = Member x l).
Proof.
  intros Hasc. pose proof (Insert_ascending value l Hasc) as Hasc'.
  split; [intros x; apply Insert_In|]. split.
  - apply Member_Insert_same. exact Hasc.
  - intros x Hx.
    pose proof (Member_In x _ Hasc') as M1. pose proof (Member_In x _ Hasc) as M2.
    rewrite Insert_In in M1.
    destruct (Member_bit x (snd (Insert value l))) as [E1|E1],
             (Member_bit x l) as [E2|E2]; rewrite E1, E2 in *; try reflexivity.
    + exfalso. assert (0 = 1) by (apply M1; right; apply M2; reflexivity). lia.
    + exfalso. destruct (proj1 M1 eq_refl) as [->|Hin]; [congruence|].
      assert (0 = 1) by (apply M2; exact Hin). lia.
Qed.

Lemma Insert_then_Member_witness :
  (forall x, In x (snd (Insert 4 [2; 5; 9])) <-> x = 4 \/ In x [2; 5; 9]) /\
  Member 4 (snd (Insert 4 [2; 5; 9])) = 1 /\
  (forall x, x <> 4 -> Member x (snd (Insert 4 [2; 5; 9])) = Member x [2; 5; 9]).
Proof. apply (Insert_then_Member 4 [2; 5; 9]). reflexivity. Defined.

(** X9. On a strictly ascending list, after [Delete] the keys are the old
    ones without the deleted one, which [Member] no longer finds, and every
    other key is found exactly if it was found before. *)
Theorem Delete_then_Member (value : Z) (l : list Z) :
  ascending l = true ->
  (forall x, In x (snd (Delete value l)) <-> In x l /\ x <> value) /\
  Member value (snd (Delete value l)) = 0 /\
  (forall x, x <> value -> Member x (snd (Delete value l)) = Member x l).
Proof.
  intros Hasc. pose proof (Delete_ascending value l Hasc) as Hasc'.
  split; [intros x; apply Delete_In; exact Hasc|]. split.
  - apply Member_Delete_same. exact Hasc.
  - intros x Hx.
    pose proof (Member_In x _ Hasc') as M1. pose proof (Member_In x _ Hasc) as M2.
    rewrite (Delete_In _ _ _ Hasc) in M1.
    destruct (Member_bit x (snd (Delete value l))) as [E1|E1],
             (Member_bit x l) as [E2|E2]; rewrite E1, E2 in *; try reflexivity.
    + exfalso. assert (0 = 1) by (apply M1; split; [apply M2; reflexivity|exact Hx]). lia.
    + exfalso. destruct (proj1 M1 eq_refl) as [Hin _].
      assert (0 = 1) by (apply M2; exact Hin). lia.
Qed.

Lemma Delete_then_Member_witness :
  (forall x, In x (snd (Delete 5 [2; 5; 9])) <-> In x [2; 5; 9] /\ x <> 5) /\
  Member 5 (snd (Delete 5 [2; 5; 9])) = 0 /\
  (forall x, x <> 5 -> Member x (snd (Delete 5 [2; 5; 9])) = Member x [2; 5; 9]).
Proof. apply (Delete_then_Member 5 [2; 5; 9]). reflexivity. Defined.

(** X10. Round trips on a strictly ascending list: inserting a key that
    was absent and deleting it again gives back the list, with both calls
    returning 1; deleting a key that was present and inserting it again
    gives back the list, with both calls returning 1. *)
Theorem Insert_Delete_roundtrip (value : Z) (l : list Z) :
  ascending l = true ->
  (~ In value l ->
   fst (Insert value l) = 1 /\ Delete value (snd (Insert value l)) = (1, l)) /\
  (In value l ->
   fst (Delete value l) = 1 /\ Insert value (snd (Delete value l)) = (1, l)).
Proof.
  intros Hasc.
  pose proof (Insert_ascending value l Hasc) as HI.
  pose proof (Delete_ascending value l Hasc) as HD.
  pose proof (Member_In value l Hasc) as HM.
  split; intros Hin.
  - assert (E0 : Member value l = 0).
    { destruct (Member_bit value l) as [E|E]; [exact E|]. apply HM in E. contradiction. }
    split; [rewrite Insert_rv, E0; reflexivity|].
    rewrite (surjective_pairing (Delete value (snd (Insert value l)))). f_equal.
    + rewrite Delete_rv. apply Member_Insert_same. exact Hasc.
    + apply ascending_ext; [apply Delete_ascending; exact HI|exact Hasc|].
      intros x. rewrite (Delete_In _ _ _ HI), Insert_In. split.
      * intros [[->|Hx] Hne]; [congruence|exact Hx].
      * intros Hx. split; [auto|]. intros ->. contradiction.
  - assert (E1 : Member value l = 1) by (apply HM; exact Hin).
    split; [rewrite Delete_rv; exact E1|].
    rewrite (surjective_pairing (Insert value (snd (Delete value l)))). f_equal.
    + rewrite Insert_rv, (Member_Delete_same value l Hasc). reflexivity.
    + apply ascending_ext; [apply Insert_ascending; exact HD|exact Hasc|].
      intros x. rewrite Insert_In, (Delete_In _ _ _ Hasc). split.
      * intros [->|[Hx _]]; assumption.
      * intros Hx. destruct (Z.eq_dec x value); auto.
Qed.

Lemma Insert_Delete_roundtrip_witness :
  (fst (Insert 4 [2; 5; 9]) = 1 /\ Delete 4 (snd (Insert 4 [2; 5; 9])) = (1, [2; 5; 9])) /\
  (fst (Delete 5 [2; 5; 9]) = 1 /\ Insert 5 (snd (Delete 5 [2; 5; 9])) = (1, [2; 5; 9])).
Proof.
  split.
  - apply (Insert_Delete_roundtrip 4 [2; 5; 9]); [reflexivity|].
    cbn. intros [H|[H|[H|[]]]]; discriminate.
  - apply (Insert_Delete_roundtrip 5 [2; 5; 9]); [reflexivity|].
    right. left. reflexivity.
Defined.

(** X11. On a strictly ascending list the order of two writes does not
    matter for the list they leave: two insertions commute, two deletions
    commute, and an insertion commutes with the deletion of another key. *)
Theorem writes_commute (a b : Z) (l : list Z) :
  ascending l = true ->
  snd (Insert a (snd (Insert b l))) = snd (Insert b (snd (Insert a l))) /\
  snd (Delete a (snd (Delete b l))) = snd (Delete b (snd (Delete a l))) /\
  (a <> b ->
   snd (Insert a (snd (Delete b l))) = snd (Delete b (snd (Insert a l)))).
Proof.
  intros Hasc.
  pose proof (Insert_ascending a l Hasc) as HIa.
  pose proof (Insert_ascending b l Hasc) as HIb.
  pose proof (Delete_ascending a l Hasc) as HDa.
  pose proof (Delete_ascending b l Hasc) as HDb.
  split; [|split].
  - apply ascending_ext; [apply Insert_ascending; exact HIb|apply Insert_ascending; exact HIa|].
    intros x. rewrite !Insert_In. tauto.
  - apply ascending_ext; [apply Delete_ascending; exact HDb|apply Delete_ascending; exact HDa|].
    intros x. rewrite (Delete_In _ _ _ HDb), (Delete_In _ _ _ HDa),
      (Delete_In _ _ _ Hasc), (Delete_In _ _ _ Hasc). tauto.
  - intros Hab.
    apply ascending_ext; [apply Insert_ascending; exact HDb|apply Delete_ascending; exact HIa|].
    intros x. rewrite Insert_In, (Delete_In _ _ _ HIa), (Delete_In _ _ _ Hasc), Insert_In.
    split.
    + intros [->|[Hx Hne]]; [split; [auto|exact Hab]|split; [auto|exact Hne]].
    + intros [[->|Hx] Hne]; auto.
Qed.

Lemma writes_commute_witness :
  snd (Insert 7 (snd (Insert 5 [2; 5; 9]))) = snd (Insert 5 (snd (Insert 7 [2; 5; 9]))) /\
  snd (Delete 7 (snd (Delete 5 [2; 5; 9]))) = snd (Delete 5 (snd (Delete 7 [2; 5; 9]))) /\
  snd (Insert 7 (snd (Delete 5 [2; 5; 9]))) = snd (Delete 5 (snd (Insert 7 [2; 5; 9]))).
Proof.
  destruct (writes_commute 7 5 [2; 5; 9] eq_refl) as (H1 & H2 & H3).
  split; [exact H1|]. split; [exact H2|]. apply H3. discriminate.
Defined.

(** ** The list during a run *)

Section RunFacts.
Context {streams : RandomStreams}.

Lemma Insert_range (value : Z) (l : list Z) :
  key_in_range value -> Forall key_in_range l -> Forall key_in_range (snd (Insert value l)).
Proof.
  intros Hv Hl. apply List.Forall_forall. intros x Hx. apply Insert_In in Hx.
  destruct Hx as [->|Hx]; [exact Hv|]. rewrite List.Forall_forall in Hl. auto.
Qed.

Lemma Delete_range (value : Z) (l : list Z) :
  Forall key_in_range l -> Forall key_in_range (snd (Delete value l)).
Proof.
  induction l as [|a l IH]; intros Hl; cbn [Delete]; [constructor|].
  apply Forall_cons in Hl as [Ha Hl].
  destruct (a <? value).
  - specialize (IH Hl). destruct (Delete value l). cbn [snd] in *. constructor; assumption.
  - destruct (a =? value); cbn [snd]; [exact Hl|constructor; assumption].
Qed.

Lemma drawn_key_in_range (r : Z) : key_in_range (r mod MAX_KEY).
Proof. unfold key_in_range, MAX_KEY. apply Z.mod_pos_bound. lia. Qed.

(** What a pass does to the list: nothing, or one [Insert] or [Delete] of a
    key in range. *)
Lemma loop_body_list (cfg : settings) (w : worker) (hd : list Z) :
  let hd' := snd (fst (loop_body cfg w hd)) in
  hd' = hd \/
  (exists v, key_in_range v /\ hd' = snd (Insert v hd)) \/
  (exists v, hd' = snd (Delete v hd)).
Proof.
  unfold loop_body.
  destruct (my_drand (seed w)) as [which_op s1], (my_rand s1) as [r s2].
  destruct (dlt which_op (search_percent cfg)); [left; reflexivity|].
  destruct (dlt which_op _); cbn [fst snd].
  - right. left. exists (r mod MAX_KEY). split; [apply drawn_key_in_range|reflexivity].
  - right. right. eexists. reflexivity.
Qed.

Lemma advance_list_ok (cfg : settings) (t : nat) (h : harness) :
  list_ok (head (globals h)) -> list_ok (head (globals (advance cfg t h))).
Proof.
  intros [Hasc Hrange]. unfold advance.
  destruct (threads h !! t) as [[w|]|]; try (split; assumption).
  unfold Thread_work_stretch. destruct (i w <? ops_per_thread cfg).
  - pose proof (loop_body_list cfg w (head (globals h))) as Hl.
    destruct (loop_body cfg w (head (globals h))) as [[w' hd'] acts].
    cbn [fst snd globals head] in *.
    destruct Hl as [->|[(v & Hv & ->)|(v & ->)]].
    + split; assumption.
    + split; [apply Insert_ascending; exact Hasc|apply Insert_range; assumption].
    + split; [apply Delete_ascending; exact Hasc|apply Delete_range; assumption].
  - cbn [globals merge head]. split; assumption.
Qed.

Lemma fill_invariant (n : Z) (fuel : nat) (filled attempts sd : Z) (hd : list Z) :
  list_ok hd -> Z.of_nat (length hd) = filled ->
  0 <= filled <= attempts -> filled <= Z.max 0 n -> attempts <= Z.max 0 (int_wrap (2 * n)) ->
  let '(filled', attempts', _, hd') := fill fuel n (filled, attempts, sd, hd) in
  list_ok hd' /\ Z.of_nat (length hd') = filled' /\
  0 <= filled' <= attempts' /\ filled' <= Z.max 0 n /\
  attempts' <= Z.max 0 (int_wrap (2 * n)).
Proof.
  revert filled attempts sd hd.
  induction fuel as [|fuel IH]; intros filled attempts sd hd Hok Hlen Hfa Hfn Han;
    cbn [fill]; [auto|].
  destruct ((filled <? n) && (attempts <? int_wrap (2 * n))) eqn:E; [|auto].
  apply andb_true_iff in E as [E1 E2]. apply Z.ltb_lt in E1, E2.
  assert (Hw : int_wrap (2 * n) <= INT_MAX).
  { unfold int_wrap, INT_MAX.
    pose proof (Z.mod_pos_bound (2 * n + 2147483648) 4294967296 ltac:(lia)). lia. }
  destruct (my_rand sd) as [r sd'].
  pose proof (Insert_length (r mod MAX_KEY) hd) as HL.
  pose proof (Insert_rv (r mod MAX_KEY) hd) as HR.
  pose proof (Member_bit (r mod MAX_KEY) hd) as HB.
  pose proof (Insert_ascending (r mod MAX_KEY) hd (proj1 Hok)) as HA.
  pose proof (Insert_range (r mod MAX_KEY) hd (drawn_key_in_range r) (proj2 Hok)) as HK.
  destruct (Insert (r mod MAX_KEY) hd) as [success hd']. cbn [fst snd] in *.
  rewrite int_incr_exact by (unfold INT_MIN, INT_MAX in *; lia).
  apply IH; [split; assumption| | | |].
  all: destruct (Z.eqb_spec success 0); lia.
Qed.

(** X13. The filling loop of [main] stops with a strictly ascending list of
    keys in [0, MAX_KEY) whose length is the count it reports; that count is
    at most [inserts_in_main] and at most the number of attempts, of which
    there are at most [2 * inserts_in_main]; and the loop has stopped because
    the count or the attempts reached their bound. *)
Theorem fill_result (n : Z) :
  let '(filled, attempts, _, hd) :=
    fill (Z.to_nat (int_wrap (2 * n))) n (0, 0, 1, []) in
  ascending hd = true /\ Forall key_in_range hd /\
  Z.of_nat (length hd) = filled /\
  0 <= filled <= attempts /\ filled <= Z.max 0 n /\
  attempts <= Z.max 0 (int_wrap (2 * n)) /\
  (filled <? n) && (attempts <? int_wrap (2 * n)) = false.
Proof.
  pose proof (fill_invariant n (Z.to_nat (int_wrap (2 * n))) 0 0 1 []) as H.
  pose proof (fill_exits n (Z.to_nat (int_wrap (2 * n))) 0 0 1 []) as He.
  destruct (fill _ n (0, 0, 1, [])) as [[[filled attempts] sd] hd].
  destruct H as ([Hasc Hr] & Hlen & Hfa & Hfn & Han);
    [split; [reflexivity|constructor]|reflexivity|lia|lia|lia|].
  specialize (He ltac:(lia) ltac:(lia)).
  repeat split; try assumption; lia.
Qed.

(** X14. Whatever the order in which the threads run, and however far they
    have got, a list that was strictly ascending with keys in [0, MAX_KEY)
    still is; in particular the list [main] hands to the threads stays so
    to the end of the run. *)
Theorem run_keeps_list_sorted (cfg : settings) (sched : list nat) (h : harness) :
  ascending (head (globals h)) = true ->
  Forall key_in_range (head (globals h)) ->
  ascending (head (globals (execute cfg sched h))) = true /\
  Forall key_in_range (head (globals (execute cfg sched h))).
Proof.
  intros Hasc Hr. assert (Hok : list_ok (head (globals h))) by (split; assumption).
  clear Hasc Hr. revert h Hok. unfold execute.
  induction sched as [|t sched IH]; intros h Hok; cbn [fold_left]; [exact Hok|].
  apply IH. apply advance_list_ok. exact Hok.
Qed.

End RunFacts.

Lemma run_keeps_list_sorted_witness :
  let cfg := Settings 3 12 half quarter quarter in
  let h := @execute sample_streams cfg [0; 1; 2; 2; 1; 0; 0; 1; 2; 2; 1]%nat
             (Harness (Shared [5; 9] 0 0 0) (spawn cfg)) in
  ascending (head (globals h)) = true /\ Forall key_in_range (head (globals h)).
Proof.
  apply (@run_keeps_list_sorted sample_streams (Settings 3 12 half quarter quarter)
           [0; 1; 2; 2; 1; 0; 0; 1; 2; 2; 1]%nat
           (Harness (Shared [5; 9] 0 0 0) (spawn (Settings 3 12 half quarter quarter)))).
  - reflexivity.
  - repeat constructor; unfold MAX_KEY; lia.
Defined.

(** ** The totals do not depend on the schedule *)

Lemma int_wrap_add_l (a b : Z) : int_wrap (int_wrap a + b) = int_wrap (a + b).
Proof.
  unfold int_wrap.
  replace (a + 2147483648) with (a + 2147483648 + 0) at 1 by lia.
  f_equal.
  replace ((a + 2147483648 + 0) mod 4294967296 - 2147483648 + b + 2147483648)
    with ((a + 2147483648) mod 4294967296 + b) by (rewrite Z.add_0_r; lia).
  rewrite Zplus_mod_idemp_l. f_equal. lia.
Qed.

Lemma merged_insert_returned (f : nat -> Z) (ths : list thread) (t r0 : nat) (w : worker) :
  ths !! t = Some (Working w) ->
  merged f r0 (<[t := Returned]> ths) = merged f r0 ths + f (r0 + t)%nat.
Proof.
  revert t r0. induction ths as [|th ths IH]; intros [|t] r0 H; try discriminate.
  - injection H as ->. cbn. rewrite Nat.add_0_r. lia.
  - change (<[S t := Returned]> (th :: ths)) with (th :: <[t := Returned]> ths).
    destruct th; cbn [merged]; rewrite (IH t (S r0) H);
      replace (S r0 + t)%nat with (r0 + S t)%nat by lia; lia.
Qed.

Lemma merged_insert_working (f : nat -> Z) (ths : list thread) (t r0 : nat) (w w' : worker) :
  ths !! t = Some (Working w) ->
  merged f r0 (<[t := Working w']> ths) = merged f r0 ths.
Proof.
  revert t r0. induction ths as [|th ths IH]; intros [|t] r0 H; try discriminate.
  - injection H as ->. reflexivity.
  - change (<[S t := Working w']> (th :: ths)) with (th :: <[t := Working w']> ths).
    destruct th; cbn [merged]; rewrite (IH t (S r0) H); reflexivity.
Qed.

Lemma merged_spawned (f : nat -> Z) (g : nat -> worker) (r0 : nat) (ranks : list nat) :
  merged f r0 (map (fun rank => Working (g rank)) ranks) = 0.
Proof.
  revert r0. induction ranks as [|r ranks IH]; intros r0; cbn; [reflexivity|apply IH].
Qed.

Lemma all_returned_replicate (ths : list thread) :
  forallb (fun th => match th with Returned => true | Working _ => false end) ths = true ->
  ths = replicate (length ths) Returned.
Proof.
  induction ths as [|[w|] ths IH]; cbn; intros H; [reflexivity|discriminate|].
  f_equal. exact (IH H).
Qed.

Section ScheduleFacts.
Context {streams : RandomStreams}.

Lemma loop_body_pass (cfg : settings) (w : worker) (hd : list Z) :
  fst (fst (loop_body cfg w hd)) = pass cfg w.
Proof.
  unfold pass, loop_body.
  destruct (my_drand (seed w)) as [which_op s1], (my_rand s1) as [r s2].
  destruct (dlt which_op (search_percent cfg)); [reflexivity|].
  destruct (dlt which_op _); reflexivity.
Qed.

Lemma pass_i (cfg : settings) (w : worker) : i (pass cfg w) = int_incr (i w).
Proof. rewrite <- (loop_body_pass cfg w []). apply (loop_body_counts cfg w []). Qed.

Lemma length_advance (cfg : settings) (t : nat) (h : harness) :
  length (threads (advance cfg t h)) = length (threads h).
Proof.
  unfold advance. destruct (threads h !! t) as [[w|]|]; try reflexivity.
  destruct (Thread_work_stretch cfg w (globals h)) as [[th' sh'] acts].
  cbn [threads]. apply length_insert.
Qed.

Lemma length_execute (cfg : settings) (sched : list nat) (h : harness) :
  length (threads (execute cfg sched h)) = length (threads h).
Proof.
  revert h. unfold execute. induction sched as [|t sched IH]; intros h; cbn [fold_left].
  - reflexivity.
  - rewrite IH. apply length_advance.
Qed.

Lemma advance_settled (cfg : settings) (t : nat) (h : harness) :
  0 <= ops_per_thread cfg <= INT_MAX ->
  settled cfg h -> settled cfg (advance cfg t h).
Proof.
  intros Hopt [Hths Hm Hi Hd]. unfold advance.
  destruct (threads h !! t) as [[w|]|] eqn:Ht; try (constructor; assumption).
  destruct (Hths t _ Ht) as (k & Hk & Hw & Hik).
  unfold Thread_work_stretch. destruct (Z.ltb_spec (i w) (ops_per_thread cfg)) as [Hlt|Hge].
  - pose proof (loop_body_pass cfg w (head (globals h))) as Hp.
    destruct (loop_body cfg w (head (globals h))) as [[w' hd'] acts].
    cbn [fst] in Hp. subst w'.
    constructor; cbn [threads globals member_count insert_count delete_count];
      rewrite ?(merged_insert_working _ _ _ _ _ _ Ht); try assumption.
    intros u th Hu. destruct (Nat.eq_dec u t) as [->|Hne].
    + rewrite list_lookup_insert_eq in Hu by (eapply lookup_lt_Some; exact Ht).
      injection Hu as <-. exists (S k). split; [lia|]. split.
      * rewrite Hw at 1. reflexivity.
      * rewrite pass_i, int_incr_exact by (unfold INT_MIN, INT_MAX in *; lia). lia.
    + rewrite list_lookup_insert_ne in Hu by congruence. exact (Hths u th Hu).
  - assert (Hfin : w = Thread_final cfg t).
    { unfold Thread_final. replace (Z.to_nat (ops_per_thread cfg)) with k by lia. exact Hw. }
    unfold merge, int_add.
    constructor; cbn [threads globals member_count insert_count delete_count];
      rewrite ?(merged_insert_returned _ _ _ _ _ Ht), ?Nat.add_0_l.
    + intros u th Hu. destruct (Nat.eq_dec u t) as [->|Hne].
      * rewrite list_lookup_insert_eq in Hu by (eapply lookup_lt_Some; exact Ht).
        injection Hu as <-. exact I.
      * rewrite list_lookup_insert_ne in Hu by congruence. exact (Hths u th Hu).
    + rewrite Hm, int_wrap_add_l, Hfin. reflexivity.
    + rewrite Hi, int_wrap_add_l, Hfin. reflexivity.
    + rewrite Hd, int_wrap_add_l, Hfin. reflexivity.
Qed.

Lemma spawn_settled (cfg : settings) (hd : list Z) :
  settled cfg (Harness (Shared hd 0 0 0) (spawn cfg)).
Proof.
  unfold spawn.
  constructor; cbn [threads globals member_count insert_count delete_count];
    rewrite ?merged_spawned; try reflexivity.
  intros t th Ht. rewrite list_lookup_fmap in Ht.
  destruct (seq 0 (Z.to_nat (thread_count cfg)) !! t) as [r|] eqn:Hr; [|discriminate].
  apply lookup_seq in Hr as [-> _]. injection Ht as <-.
  exists 0%nat. split; [lia|]. split; reflexivity.
Qed.

Lemma execute_settled (cfg : settings) (sched : list nat) (h : harness) :
  0 <= ops_per_thread cfg <= INT_MAX ->
  settled cfg h -> settled cfg (execute cfg sched h).
Proof.
  intros Hopt. revert h. unfold execute.
  induction sched as [|t sched IH]; intros h Hh; cbn [fold_left]; [exact Hh|].
  apply IH. apply advance_settled; assumption.
Qed.

(** X15. With a positive thread count and a non-negative operation count,
    the three totals reported at the end of a run depend neither on the
    order in which the threads ran nor on the list they started from: any
    two runs in which every thread has returned report the same number of
    searches, of insertions and of deletions. *)
Theorem totals_independent_of_schedule (cfg : settings) (hd1 hd2 : list Z)
    (sched1 sched2 : list nat) :
  0 < thread_count cfg -> 0 <= total_ops cfg <= INT_MAX ->
  let h1 := execute cfg sched1 (Harness (Shared hd1 0 0 0) (spawn cfg)) in
  let h2 := execute cfg sched2 (Harness (Shared hd2 0 0 0) (spawn cfg)) in
  all_returned h1 = true -> all_returned h2 = true ->
  member_count (globals h1) = member_count (globals h2) /\
  insert_count (globals h1) = insert_count (globals h2) /\
  delete_count (globals h1) = delete_count (globals h2).
Proof.
  intros Hn HT h1 h2 H1 H2.
  destruct (ops_per_thread_bounds cfg Hn ltac:(lia)) as [Hopt Hmul].
  assert (Hmax : 0 <= ops_per_thread cfg <= INT_MAX) by (unfold INT_MAX in *; nia).
  destruct (execute_settled cfg sched1 _ Hmax (spawn_settled cfg hd1)) as [_ M1 I1 D1].
  destruct (execute_settled cfg sched2 _ Hmax (spawn_settled cfg hd2)) as [_ M2 I2 D2].
  fold h1 in M1, I1, D1. fold h2 in M2, I2, D2.
  assert (E : threads h1 = threads h2).
  { rewrite (all_returned_replicate _ H1), (all_returned_replicate _ H2).
    unfold h1, h2. rewrite !length_execute. reflexivity. }
  rewrite M1, M2, I1, I2, D1, D2, E. auto.
Qed.

Lemma advance_searches_only (cfg : settings) (t : nat) (h : harness) :
  (forall s, dlt (fst (my_drand s)) (search_percent cfg) = true) ->
  searches_only h ->
  searches_only (advance cfg t h) /\ head (globals (advance cfg t h)) = head (globals h).
Proof.
  intros Hsel (Hi & Hd & Hths). unfold advance, searches_only.
  destruct (threads h !! t) as [[w|]|] eqn:Ht; try (split; [repeat split; assumption|reflexivity]).
  pose proof (Forall_lookup_1 _ _ _ _ Hths Ht) as [Hwi Hwd]. cbn in Hwi, Hwd.
  unfold Thread_work_stretch. destruct (i w <? ops_per_thread cfg).
  - unfold loop_body. specialize (Hsel (seed w)).
    destruct (my_drand (seed w)) as [which_op s1]. cbn [fst] in Hsel. rewrite Hsel.
    destruct (my_rand s1) as [r s2]. cbn [globals head threads insert_count delete_count].
    split; [|reflexivity]. repeat split; try assumption.
    apply Forall_insert; [exact Hths|]. cbn. auto.
  - unfold merge. cbn [globals head threads insert_count delete_count].
    split; [|reflexivity]. unfold int_add. rewrite Hi, Hd, Hwi, Hwd.
    repeat split; try reflexivity. apply Forall_insert; [exact Hths|exact I].
Qed.

(** X16. When every selector drawn is below [search_percent], a run does
    nothing but search: whatever the schedule, the list is at every moment
    the list the threads were started on, the insert and delete totals stay
    0, and once all threads have returned (positive thread count,
    non-negative operation count) the search total is the number of
    operations executed. *)
Theorem search_only_run (cfg : settings) (hd : list Z) (sched : list nat) :
  (forall s, dlt (fst (my_drand s)) (search_percent cfg) = true) ->
  let h := execute cfg sched (Harness (Shared hd 0 0 0) (spawn cfg)) in
  head (globals h) = hd /\
  insert_count (globals h) = 0 /\ delete_count (globals h) = 0 /\
  (0 < thread_count cfg -> 0 <= total_ops cfg <= INT_MAX -> all_returned h = true ->
   member_count (globals h) = thread_count cfg * ops_per_thread cfg).
Proof.
  intros Hsel h.
  assert (Hrun : searches_only h /\ head (globals h) = hd).
  { unfold h. clear h.
    assert (H0 : searches_only (Harness (Shared hd 0 0 0) (spawn cfg))).
    { repeat split. unfold spawn. apply Forall_map, Forall_forall. intros; cbn. auto. }
    change hd with (head (globals (Harness (Shared hd 0 0 0) (spawn cfg)))) at 3.
    revert H0. generalize (Harness (Shared hd 0 0 0) (spawn cfg)). unfold execute.
    induction sched as [|t sched IH]; intros h0 H0; cbn [fold_left]; [auto|].
    destruct (advance_searches_only cfg t h0 Hsel H0) as [H1 E1].
    destruct (IH _ H1) as [H2 E2]. split; [exact H2|]. rewrite E2. exact E1. }
  destruct Hrun as [(Hi & Hd & _) Hhd].
  repeat split; try assumption.
  intros Hn HT Hall.
  destruct (execute_tallied cfg sched _ Hn HT (spawn_tallied cfg hd Hn ltac:(lia)))
    as [_ Hlen _ _ _ Hsum].
  fold h in Hlen, Hsum. unfold all_returned in Hall.
  rewrite (returned_all _ Hall), Hlen in Hsum. lia.
Qed.

End ScheduleFacts.

Lemma totals_independent_of_schedule_witness :
  let cfg := Settings 2 6 half quarter quarter in
  let h1 := @execute sample_streams cfg [0; 0; 0; 0; 1; 1; 1; 1]%nat
              (Harness (Shared [] 0 0 0) (spawn cfg)) in
  let h2 := @execute sample_streams cfg [1; 0; 1; 0; 0; 1; 1; 0]%nat
              (Harness (Shared [5; 9] 0 0 0) (spawn cfg)) in
  member_count (globals h1) = member_count (globals h2) /\
  insert_count (globals h1) = insert_count (globals h2) /\
  delete_count (globals h1) = delete_count (globals h2).
Proof.
  apply (@totals_independent_of_schedule sample_streams (Settings 2 6 half quarter quarter)
           [] [5; 9] [0; 0; 0; 0; 1; 1; 1; 1]%nat [1; 0; 1; 0; 0; 1; 1; 0]%nat).
  - reflexivity.
  - cbn [total_ops]. unfold INT_MAX. lia.
  - vm_compute. reflexivity.
  - vm_compute. reflexivity.
Defined.

Lemma search_only_run_witness :
  let cfg := Settings 2 6 three_quarters quarter double_one in
  let h := @execute steady_streams cfg [1; 0; 1; 0; 0; 1; 1; 0]%nat
             (Harness (Shared [5; 9] 0 0 0) (spawn cfg)) in
  head (globals h) = [5; 9] /\
  insert_count (globals h) = 0 /\ delete_count (globals h) = 0 /\
  member_count (globals h) = 2 * 3.
Proof.
  destruct (@search_only_run steady_streams (Settings 2 6 three_quarters quarter double_one)
              [5; 9] [1; 0; 1; 0; 0; 1; 1; 0]%nat (fun _ => eq_refl))
    as (H1 & H2 & H3 & H4).
  split; [exact H1|]. split; [exact H2|]. split; [exact H3|].
  apply H4.
  - reflexivity.
  - cbn [total_ops]. unfold INT_MAX. lia.
  - vm_compute. reflexivity.
Defined.

(** ** The list in memory *)

Lemma lseg_length (c : gmap nat list_node_s) (p q : option nat) (addrs : list nat)
    (keys : list Z) :
  lseg c p q addrs keys -> length addrs = length keys.
Proof.
  revert p keys. induction addrs as [|a addrs IH]; intros p [|k keys]; cbn;
    try tauto.
  intros (_ & nx & _ & H). f_equal. exact (IH _ _ H).
Qed.

Lemma lseg_allocated (c : gmap nat list_node_s) (p q : option nat) (addrs : list nat)
    (keys : list Z) (a : nat) :
  lseg c p q addrs keys -> In a addrs -> is_Some (c !! a).
Proof.
  revert p keys. induction addrs as [|b addrs IH]; intros p [|k keys]; cbn; try tauto.
  intros (_ & nx & Hb & H) [->|Hin]; [eauto|exact (IH _ _ H Hin)].
Qed.

Lemma lseg_insert_other (c : gmap nat list_node_s) (p q : option nat) (addrs : list nat)
    (keys : list Z) (a : nat) (x : list_node_s) :
  ~ In a addrs -> lseg c p q addrs keys -> lseg (<[a := x]> c) p q addrs keys.
Proof.
  revert p keys. induction addrs as [|b addrs IH]; intros p [|k keys] Hn; cbn; try tauto.
  intros (Hp & nx & Hb & H). split; [exact Hp|]. exists nx. split.
  - rewrite lookup_insert_ne; [exact Hb|]. intros ->. apply Hn. left. reflexivity.
  - apply IH; [|exact H]. intros Hin. apply Hn. right. exact Hin.
Qed.

Lemma lseg_delete_other (c : gmap nat list_node_s) (p q : option nat) (addrs : list nat)
    (keys : list Z) (a : nat) :
  ~ In a addrs -> lseg c p q addrs keys -> lseg (delete a c) p q addrs keys.
Proof.
  revert p keys. induction addrs as [|b addrs IH]; intros p [|k keys] Hn; cbn; try tauto.
  intros (Hp & nx & Hb & H). split; [exact Hp|]. exists nx. split.
  - rewrite lookup_delete_ne; [exact Hb|]. intros ->. apply Hn. left. reflexivity.
  - apply IH; [|exact H]. intros Hin. apply Hn. right. exact Hin.
Qed.

Lemma lseg_app (c : gmap nat list_node_s) (p q r : option nat) (a1 a2 : list nat)
    (k1 k2 : list Z) :
  lseg c p q a1 k1 -> lseg c q r a2 k2 -> lseg c p r (a1 ++ a2) (k1 ++ k2).
Proof.
  revert p k1. induction a1 as [|a a1 IH]; intros p [|k k1]; cbn; try tauto.
  - intros -> H. exact H.
  - intros (Hp & nx & Ha & H) H2. split; [exact Hp|]. exists nx. split; [exact Ha|].
    exact (IH _ _ H H2).
Qed.

(** Redirecting the last node of a segment redirects the segment. *)
Lemma lseg_redirect (c : gmap nat list_node_s) (p q q' : option nat) (a1 : list nat)
    (k1 : list Z) (a : nat) (k : Z) :
  List.NoDup (a1 ++ [a]) ->
  lseg c p q (a1 ++ [a]) (k1 ++ [k]) ->
  c !! a = Some (Node k q) /\
  lseg (<[a := Node k q']> c) p q' (a1 ++ [a]) (k1 ++ [k]).
Proof.
  revert p k1. induction a1 as [|b a1 IH]; intros p k1 Hnd H.
  - destruct k1 as [|k0 k1]; cbn in H.
    + destruct H as (-> & nx & Ha & ->). split; [exact Ha|].
      cbn. split; [reflexivity|]. exists q'. rewrite lookup_insert_eq. auto.
    + destruct H as (_ & nx & _ & H). destruct k1; cbn in H; tauto.
  - destruct k1 as [|k0 k1]; cbn in H.
    + destruct H as (_ & nx & _ & H). destruct a1; cbn in H; tauto.
    + destruct H as (-> & nx & Hb & H).
      cbn in Hnd. apply List.NoDup_cons_iff in Hnd as [Hnb Hnd].
      destruct (IH _ _ Hnd H) as [Ha H']. split; [exact Ha|].
      cbn. split; [reflexivity|]. exists nx. split; [|exact H'].
      rewrite lookup_insert_ne; [exact Hb|]. intros ->. apply Hnb.
      apply in_or_app. right. left. reflexivity.
Qed.

(** Distinct allocated nodes are no more than the map holds. *)
Lemma distinct_le_size (c : gmap nat list_node_s) (addrs : list nat) :
  List.NoDup addrs -> (forall a, In a addrs -> is_Some (c !! a)) ->
  (length addrs <= size c)%nat.
Proof.
  revert c. induction addrs as [|a addrs IH]; intros c Hnd Hall; cbn; [lia|].
  apply List.NoDup_cons_iff in Hnd as [Hna Hnd].
  destruct (Hall a (or_introl eq_refl)) as [x Hx].
  rewrite <- (insert_delete_id c a x Hx).
  rewrite map_size_insert_None by apply lookup_delete_eq.
  apply le_n_S. apply IH; [exact Hnd|].
  intros b Hb. rewrite lookup_delete_ne; [apply Hall; right; exact Hb|].
  intros ->. contradiction.
Qed.

Lemma holds_fuel (m : memory) (addrs : list nat) (keys : list Z) :
  holds m addrs keys -> (length addrs <= size (cells m))%nat.
Proof.
  intros [Hl Hd _]. apply distinct_le_size; [exact Hd|].
  intros a. exact (lseg_allocated _ _ _ _ _ a Hl).
Qed.

(** Where the shared loop stops: past the keys below [value], at the first
    key that is not, with [pred] the last node passed. *)
Lemma advance_to_stops (value : Z) (c : gmap nat list_node_s) (addrs : list nat) :
  forall (keys : list Z) (pred curr : option nat) (fuel : nat),
    lseg c curr None addrs keys -> (length addrs <= fuel)%nat ->
    exists a1 k1 a2 k2 curr',
      addrs = a1 ++ a2 /\ keys = k1 ++ k2 /\
      advance_to fuel c value pred curr
        = Returns (match last a1 with Some a => Some a | None => pred end, curr') /\
      lseg c curr curr' a1 k1 /\ lseg c curr' None a2 k2 /\
      Forall (fun k => k < value) k1 /\
      match k2 with [] => True | k :: _ => value <= k end.
Proof.
  induction addrs as [|a addrs IH]; intros [|k keys] pred curr fuel H Hf; cbn in H;
    try tauto.
  - subst curr. exists [], [], [], [], None. destruct fuel; cbn; repeat split; constructor.
  - destruct H as (-> & nx & Ha & H).
    destruct fuel as [|fuel]; [cbn in Hf; lia|].
    cbn [advance_to]. rewrite Ha. cbn [data next].
    destruct (Z.ltb_spec k value) as [Hlt|Hge].
    + destruct (IH keys (Some a) nx fuel H ltac:(cbn in Hf; lia))
        as (a1 & k1 & a2 & k2 & curr' & -> & -> & Hadv & H1 & H2 & Hall & Hk2).
      exists (a :: a1), (k :: k1), a2, k2, curr'.
      split; [reflexivity|]. split; [reflexivity|]. split.
      { rewrite Hadv. f_equal. f_equal. destruct a1 as [|b a1]; [reflexivity|].
        rewrite last_cons_cons. destruct (last (b :: a1)) eqn:E; [reflexivity|].
        apply last_None in E. discriminate. }
      split; [cbn; split; [reflexivity|]; eauto|].
      split; [exact H2|]. split; [constructor; assumption|exact Hk2].
    + exists [], [], (a :: addrs), (k :: keys), (Some a).
      split; [reflexivity|]. split; [reflexivity|]. split; [reflexivity|].
      split; [reflexivity|]. split; [cbn; eauto|]. split; [constructor|exact Hge].
Qed.

(** The list functions past a run of smaller keys. *)
Lemma Insert_skip (value : Z) (k1 k2 : list Z) :
  Forall (fun k => k < value) k1 ->
  Insert value (k1 ++ k2) = (fst (Insert value k2), k1 ++ snd (Insert value k2)).
Proof.
  induction 1 as [|k k1 Hk _ IH]; cbn [app Insert]; [destruct (Insert value k2); reflexivity|].
  replace (k <? value) with true by (symmetry; apply Z.ltb_lt; exact Hk).
  rewrite IH. reflexivity.
Qed.

Lemma Delete_skip (value : Z) (k1 k2 : list Z) :
  Forall (fun k => k < value) k1 ->
  Delete value (k1 ++ k2) = (fst (Delete value k2), k1 ++ snd (Delete value k2)).
Proof.
  induction 1 as [|k k1 Hk _ IH]; cbn [app Delete]; [destruct (Delete value k2); reflexivity|].
  replace (k <? value) with true by (symmetry; apply Z.ltb_lt; exact Hk).
  rewrite IH. reflexivity.
Qed.

Lemma lseg_snoc_keys (c : gmap nat list_node_s) (p q : option nat) (a1 : list nat)
    (a : nat) (keys : list Z) :
  lseg c p q (a1 ++ [a]) keys -> exists k1 k, keys = k1 ++ [k].
Proof.
  intros H. apply lseg_length in H. rewrite length_app in H. cbn in H.
  destruct (List.exists_last (l := keys)) as (k1 & k & ->); [|eauto].
  intros ->. cbn in H. lia.
Qed.

(** Linking a new node in front of [curr'], after the segment that leads to
    it. *)
Lemma splice_new_node (c : gmap nat list_node_s) (hd curr' : option nat)
    (a1 a2 : list nat) (k1 k2 : list Z) (temp : nat) (value : Z) :
  lseg c hd curr' a1 k1 -> lseg c curr' None a2 k2 ->
  List.NoDup (a1 ++ a2) -> c !! temp = None ->
  let c1 := <[temp := Node value curr']> c in
  match last a1 with
  | None =>
      hd = curr' /\
      lseg c1 (Some temp) None (a1 ++ temp :: a2) (k1 ++ value :: k2)
  | Some p =>
      exists kp, c1 !! p = Some (Node kp curr') /\
        lseg (<[p := Node kp (Some temp)]> c1) hd None
             (a1 ++ temp :: a2) (k1 ++ value :: k2)
  end.
Proof.
  intros H1 H2 Hnd Hfresh c1.
  assert (Hn1 : ~ In temp a1).
  { intros Hin. destruct (lseg_allocated _ _ _ _ _ temp H1 Hin) as [x Hx]. congruence. }
  assert (Hn2 : ~ In temp a2).
  { intros Hin. destruct (lseg_allocated _ _ _ _ _ temp H2 Hin) as [x Hx]. congruence. }
  destruct (last a1) as [p|] eqn:El.
  - apply last_Some in El as [a1' ->].
    destruct (lseg_snoc_keys _ _ _ _ _ _ H1) as (k1' & kp & ->).
    assert (Hnd1 : List.NoDup (a1' ++ [p])) by (apply List.NoDup_app_remove_r in Hnd; exact Hnd).
    assert (Hp2 : ~ In p a2).
    { intros Hin. rewrite <- app_assoc in Hnd. apply List.NoDup_remove_2 in Hnd.
      apply Hnd. apply in_or_app. right. exact Hin. }
    assert (Hpt : p <> temp).
    { intros ->. apply Hn1. apply in_or_app. right. left. reflexivity. }
    apply (lseg_insert_other _ _ _ _ _ temp (Node value curr') Hn1) in H1.
    destruct (lseg_redirect _ _ _ (Some temp) _ _ _ _ Hnd1 H1) as [Hp H1'].
    exists kp. split; [exact Hp|].
    apply (lseg_app _ _ (Some temp)); [exact H1'|].
    cbn. split; [reflexivity|]. exists curr'. split.
    + rewrite lookup_insert_ne by exact Hpt. apply lookup_insert_eq.
    + apply lseg_insert_other; [exact Hp2|]. apply lseg_insert_other; [exact Hn2|exact H2].
  - apply last_None in El. subst a1. destruct k1; cbn in H1; [|tauto]. subst curr'.
    split; [reflexivity|]. cbn. split; [reflexivity|]. exists hd. split.
    + apply lookup_insert_eq.
    + apply lseg_insert_other; [exact Hn2|exact H2].
Qed.

(** What [Insert] does once the loop has stopped, whatever [malloc]
    returns. *)
Lemma Insert_mem_shape (value : Z) (m : memory) (addrs : list nat) (keys : list Z) :
  holds m addrs keys ->
  exists a1 k1 a2 k2 curr',
    addrs = a1 ++ a2 /\ keys = k1 ++ k2 /\
    lseg (cells m) (head_ptr m) curr' a1 k1 /\ lseg (cells m) curr' None a2 k2 /\
    Insert value keys = (fst (Insert value k2), k1 ++ snd (Insert value k2)) /\
    (fst (Insert value k2) = 0 /\ snd (Insert value k2) = k2 \/
     fst (Insert value k2) = 1 /\ snd (Insert value k2) = value :: k2) /\
    forall malloced,
      Insert_mem value malloced m =
        if fst (Insert value k2) =? 0 then Returns (0, m)
        else match malloced with
             | None => Faults
             | Some temp =>
                 let c1 := <[temp := Node value curr']> (cells m) in
                 match last a1 with
                 | None => Returns (1, Memory c1 (Some temp))
                 | Some p =>
                     match c1 !! p with
                     | None => Faults
                     | Some nd =>
                         Returns (1, Memory (<[p := Node (data nd) (Some temp)]> c1)
                                            (head_ptr m))
                     end
                 end
             end.
Proof.
  intros Hm. pose proof (holds_fuel m addrs keys Hm) as Hfuel.
  destruct Hm as [Hl Hnd Hall].
  destruct (advance_to_stops value (cells m) addrs keys None (head_ptr m) _ Hl Hfuel)
    as (a1 & k1 & a2 & k2 & curr' & -> & -> & Hadv & H1 & H2 & Hlt & Hk2).
  exists a1, k1, a2, k2, curr'.
  split; [reflexivity|]. split; [reflexivity|]. split; [exact H1|]. split; [exact H2|].
  split; [apply Insert_skip; exact Hlt|].
  unfold Insert_mem. rewrite Hadv.
  destruct a2 as [|a a2], k2 as [|k k2]; cbn in H2; try tauto.
  - subst curr'. split; [right; split; reflexivity|]. intros malloced. cbn [Insert fst].
    change (1 =? 0) with false. cbv iota.
    destruct malloced as [temp|]; [|reflexivity].
    destruct (last a1); reflexivity.
  - destruct H2 as (-> & nx & Ha & H2). rewrite Ha. cbn [data Insert].
    replace (k <? value) with false by (symmetry; apply Z.ltb_ge; exact Hk2).
    destruct (Z.gtb_spec k value) as [Hgt|Hle]; cbn [fst snd].
    + split; [right; split; reflexivity|]. intros malloced.
      change (1 =? 0) with false. cbv iota.
      destruct malloced as [temp|]; [|reflexivity].
      destruct (last a1); reflexivity.
    + split; [left; split; reflexivity|]. intros malloced. reflexivity.
Qed.

(** X17. [Insert] on the list in memory, when [malloc] returns a fresh
    node: on a memory that holds the keys [keys] in distinct nodes and
    nothing else, it returns what the list function returns and leaves
    a memory that holds the list the list function leaves; a duplicate
    changes nothing at all, and otherwise exactly the new node is added to
    the allocated ones. *)
Theorem Insert_mem_refines (value : Z) (temp : nat) (m : memory)
    (addrs : list nat) (keys : list Z) :
  holds m addrs keys -> cells m !! temp = None ->
  exists m' addrs',
    Insert_mem value (Some temp) m = Returns (fst (Insert value keys), m') /\
    holds m' addrs' (snd (Insert value keys)) /\
    (fst (Insert value keys) = 0 -> m' = m /\ addrs' = addrs) /\
    (fst (Insert value keys) = 1 ->
     forall a, is_Some (cells m' !! a) <-> a = temp \/ is_Some (cells m !! a)).
Proof.
  intros Hm Hfresh.
  destruct (Insert_mem_shape value m addrs keys Hm)
    as (a1 & k1 & a2 & k2 & curr' & -> & -> & H1 & H2 & HI & Hrv & Hrun).
  destruct Hm as [Hl Hnd Hall]. rewrite HI, (Hrun (Some temp)). cbn [fst snd].
  destruct Hrv as [[E0 E1]|[E0 E1]]; rewrite E0, E1.
  - exists m, (a1 ++ a2). cbn. split; [reflexivity|]. split; [constructor; assumption|].
    split; [auto|discriminate].
  - change (1 =? 0) with false. cbv iota zeta.
    pose proof (splice_new_node _ _ _ _ _ _ _ temp value H1 H2 Hnd Hfresh) as Hs.
    cbv zeta in Hs.
    assert (Hnt : ~ In temp (a1 ++ a2)).
    { intros Hin. destruct (lseg_allocated _ _ _ _ _ temp Hl Hin) as [x Hx]. congruence. }
    assert (Hnd' : List.NoDup (a1 ++ temp :: a2)).
    { apply List.NoDup_Add with (a := temp) (l := a1 ++ a2); [|constructor; assumption].
      apply List.Add_app. }
    assert (Hin' : forall a, In a (a1 ++ temp :: a2) <-> a = temp \/ In a (a1 ++ a2)).
    { intros a. rewrite !in_app_iff. cbn. split.
      - intros [H|[H|H]]; auto.
      - intros [H|[H|H]]; auto. }
    destruct (last a1) as [p|] eqn:El.
    + destruct Hs as (kp & Hp & Hs). rewrite Hp. cbn [data].
      eexists. exists (a1 ++ temp :: a2). split; [reflexivity|].
      assert (Hdom : forall a,
                is_Some ((<[p := Node kp (Some temp)]>
                            (<[temp := Node value curr']> (cells m))) !! a)
                <-> a = temp \/ is_Some (cells m !! a)).
      { intros a. rewrite lookup_insert_is_Some, lookup_insert_is_Some.
        assert (Hpa : is_Some (cells m !! p)).
        { apply last_Some in El as [a1' ->].
          apply (lseg_allocated _ _ _ _ _ p Hl), in_or_app. left.
          apply in_or_app. right. left. reflexivity. }
        split.
        - intros [->|[_ [->|[_ H]]]]; auto.
        - intros [->|H].
          + destruct (Nat.eq_dec p temp); [left; congruence|right; split; auto].
          + destruct (Nat.eq_dec p a); [left; assumption|right; split; [assumption|]].
            destruct (Nat.eq_dec temp a); [left; assumption|right; split; assumption]. }
      split; [constructor; cbn [cells head_ptr]; [exact Hs|exact Hnd'|]|].
      * intros a Ha. apply Hin'. apply Hdom in Ha. destruct Ha as [->|Ha]; auto.
      * split; [discriminate|]. intros _. exact Hdom.
    + destruct Hs as (Hhd & Hs).
      eexists. exists (a1 ++ temp :: a2). split; [reflexivity|].
      assert (Hdom : forall a,
                is_Some ((<[temp := Node value curr']> (cells m)) !! a)
                <-> a = temp \/ is_Some (cells m !! a)).
      { intros a. rewrite lookup_insert_is_Some. split.
        - intros [->|[_ H]]; auto.
        - intros [->|H]; [auto|].
          destruct (Nat.eq_dec temp a); [left; assumption|right; split; assumption]. }
      split; [constructor; cbn [cells head_ptr]; [exact Hs|exact Hnd'|]|].
      * intros a Ha. apply Hin'. apply Hdom in Ha. destruct Ha as [->|Ha]; auto.
      * split; [discriminate|]. intros _. exact Hdom.
Qed.

(** X18. [Insert] when [malloc] returns NULL: the result is not tested,
    so inserting a key that is not in the list writes through the null
    pointer; a key that is in the list needs no node and returns 0 with the
    memory untouched. *)
Theorem Insert_mem_out_of_memory (value : Z) (m : memory) (addrs : list nat) (keys : list Z) :
  holds m addrs keys ->
  Insert_mem value None m = if Member value keys =? 1 then Returns (0, m) else Faults.
Proof.
  intros Hm.
  destruct (Insert_mem_shape value m addrs keys Hm)
    as (a1 & k1 & a2 & k2 & curr' & -> & -> & H1 & H2 & HI & Hrv & Hrun).
  rewrite (Hrun None).
  pose proof (Insert_rv value (k1 ++ k2)) as Hr. rewrite HI in Hr. cbn [fst] in Hr.
  destruct Hrv as [[E0 _]|[E0 _]]; rewrite E0 in *.
  - replace (Member value (k1 ++ k2)) with 1 by lia. reflexivity.
  - replace (Member value (k1 ++ k2)) with 0 by lia. reflexivity.
Qed.

(** X19. [Delete] on the list in memory: on a memory that holds [keys] in
    distinct nodes and nothing else it returns what the list function
    returns and leaves a memory that holds the list the list function
    leaves; when the key is missing nothing changes, and otherwise exactly
    one node, which was part of the list, is freed. *)
Theorem Delete_mem_refines (value : Z) (m : memory) (addrs : list nat) (keys : list Z) :
  holds m addrs keys ->
  exists m' addrs',
    Delete_mem value m = Returns (fst (Delete value keys), m') /\
    holds m' addrs' (snd (Delete value keys)) /\
    (fst (Delete value keys) = 0 -> m' = m /\ addrs' = addrs) /\
    (fst (Delete value keys) = 1 ->
     exists a, In a addrs /\
       forall b, is_Some (cells m' !! b) <-> is_Some (cells m !! b) /\ b <> a).
Proof.
  intros Hm. pose proof (holds_fuel m addrs keys Hm) as Hfuel.
  destruct Hm as [Hl Hnd Hall].
  destruct (advance_to_stops value (cells m) addrs keys None (head_ptr m) _ Hl Hfuel)
    as (a1 & k1 & a2 & k2 & curr' & -> & -> & Hadv & H1 & H2 & Hlt & Hk2).
  rewrite (Delete_skip value k1 k2 Hlt). cbn [fst snd].
  unfold Delete_mem. rewrite Hadv.
  destruct a2 as [|a a2], k2 as [|k k2]; cbn in H2; try tauto.
  - subst curr'. exists m, (a1 ++ []). cbn [Delete fst snd].
    split; [reflexivity|]. split; [constructor; assumption|]. split; [auto|discriminate].
  - destruct H2 as (-> & nx & Ha & H2). rewrite Ha. cbn [data next Delete].
    replace (k <? value) with false by (symmetry; apply Z.ltb_ge; exact Hk2).
    destruct (Z.eqb_spec k value) as [->|Hne]; cbn [fst snd].
    2:{ exists m, (a1 ++ a :: a2). split; [reflexivity|].
        split; [constructor; assumption|]. split; [auto|discriminate]. }
    assert (Hnd' : List.NoDup (a1 ++ a2)) by (apply List.NoDup_remove_1 in Hnd; exact Hnd).
    assert (Ha1 : ~ In a a1 /\ ~ In a a2).
    { apply List.NoDup_remove_2 in Hnd. rewrite in_app_iff in Hnd. tauto. }
    destruct Ha1 as [Ha1 Ha2].
    assert (Hin : forall b, In b (a1 ++ a :: a2) /\ b <> a -> In b (a1 ++ a2)).
    { intros b [Hb Hba]. rewrite in_app_iff in *. cbn in Hb.
      destruct Hb as [Hb|[Hb|Hb]]; auto. congruence. }
    destruct (last a1) as [p|] eqn:El.
    + apply last_Some in El as [a1' ->].
      destruct (lseg_snoc_keys _ _ _ _ _ _ H1) as (k1' & kp & ->).
      assert (Hnd1 : List.NoDup (a1' ++ [p]))
        by (apply List.NoDup_app_remove_r in Hnd; exact Hnd).
      assert (Hp2 : ~ In p a2).
      { intros Hq. rewrite <- app_assoc in Hnd'. apply List.NoDup_remove_2 in Hnd'.
        apply Hnd'. apply in_or_app. right. exact Hq. }
      destruct (lseg_redirect _ _ _ nx _ _ _ _ Hnd1 H1) as [Hp H1'].
      rewrite Hp. cbn [data].
      eexists. exists ((a1' ++ [p]) ++ a2). split; [reflexivity|].
      assert (Hdom : forall b,
                is_Some (delete a (<[p := Node kp nx]> (cells m)) !! b)
                <-> is_Some (cells m !! b) /\ b <> a).
      { intros b. rewrite lookup_delete_is_Some, lookup_insert_is_Some. split.
        - intros [Hab [->|[_ H]]]; split; eauto; congruence.
        - intros [H Hab]. split; [congruence|].
          destruct (Nat.eq_dec p b); [left; assumption|right; split; assumption]. }
      split; [constructor; cbn [cells head_ptr]|].
      * apply (lseg_app _ _ nx).
        -- apply lseg_delete_other; [exact Ha1|exact H1'].
        -- apply lseg_delete_other; [exact Ha2|].
           apply lseg_insert_other; [exact Hp2|exact H2].
      * exact Hnd'.
      * intros b Hb. apply Hdom in Hb as [Hb Hba]. apply Hin. split; [|exact Hba].
        apply Hall. exact Hb.
      * split; [discriminate|]. intros _. exists a.
        split; [apply in_or_app; right; left; reflexivity|exact Hdom].
    + apply last_None in El. subst a1. destruct k1; cbn in H1; [|tauto].
      eexists. exists a2. split; [reflexivity|].
      assert (Hdom : forall b,
                is_Some (delete a (cells m) !! b) <-> is_Some (cells m !! b) /\ b <> a).
      { intros b. rewrite lookup_delete_is_Some. split; intros [? ?]; split; congruence. }
      split; [constructor; cbn [cells head_ptr]|].
      * apply lseg_delete_other; [exact Ha2|exact H2].
      * exact Hnd'.
      * intros b Hb. apply Hdom in Hb as [Hb Hba]. apply (Hin b). split; [|exact Hba].
        apply Hall. exact Hb.
      * split; [discriminate|]. intros _. exists a. split; [left; reflexivity|exact Hdom].
Qed.

Lemma Member_from_list (value : Z) (c : gmap nat list_node_s) (addrs : list nat) :
  forall (keys : list Z) (p : option nat) (fuel : nat),
    lseg c p None addrs keys -> (length addrs <= fuel)%nat ->
    Member_from fuel c value p = Returns (Member value keys).
Proof.
  induction addrs as [|a addrs IH]; intros [|k keys] p fuel H Hf; cbn in H; try tauto.
  - subst p. destruct fuel; reflexivity.
  - destruct H as (-> & nx & Ha & H). destruct fuel as [|fuel]; [cbn in Hf; lia|].
    cbn [Member_from Member]. rewrite Ha. cbn [data next].
    destruct (k <? value); [|destruct (k >? value); reflexivity].
    apply IH; [exact H|cbn in Hf; lia].
Qed.

Lemma Print_from_list (c : gmap nat list_node_s) (addrs : list nat) :
  forall (keys : list Z) (p : option nat) (fuel : nat),
    lseg c p None addrs keys -> (length addrs <= fuel)%nat ->
    Print_from fuel c p = Returns keys.
Proof.
  induction addrs as [|a addrs IH]; intros [|k keys] p fuel H Hf; cbn in H; try tauto.
  - subst p. destruct fuel; reflexivity.
  - destruct H as (-> & nx & Ha & H). destruct fuel as [|fuel]; [cbn in Hf; lia|].
    cbn [Print_from]. rewrite Ha. cbn [data next].
    rewrite (IH keys nx fuel H ltac:(cbn in Hf; lia)). reflexivity.
Qed.

(** X20. [Member] and [Print] on the list in memory: on a memory that holds
    [keys] they return, leaving the memory alone, what the list function
    [Member] returns and the keys in list order; and [Is_empty] returns 1
    exactly for the empty list. *)
Theorem readers_mem_refine (value : Z) (m : memory) (addrs : list nat) (keys : list Z) :
  holds m addrs keys ->
  Member_mem value m = Returns (Member value keys) /\
  Print m = Returns keys /\
  (Is_empty m = 1 <-> keys = []) /\ (Is_empty m = 0 <-> keys <> []).
Proof.
  intros Hm. pose proof (holds_fuel m addrs keys Hm) as Hfuel.
  destruct Hm as [Hl Hnd Hall].
  split; [exact (Member_from_list value _ _ _ _ _ Hl Hfuel)|].
  split; [exact (Print_from_list _ _ _ _ _ Hl Hfuel)|].
  unfold Is_empty.
  destruct addrs as [|a addrs], keys as [|k keys]; cbn in Hl; try tauto.
  - rewrite Hl. split; split; intros; congruence.
  - destruct Hl as (-> & _). split; split; intros; congruence.
Qed.

Lemma free_from_list (addrs : list nat) :
  forall (keys : list Z) (a : nat) (k : Z) (c0 : gmap nat list_node_s) (fuel : nat),
    lseg c0 (Some a) None (a :: addrs) (k :: keys) -> List.NoDup (a :: addrs) ->
    (length addrs <= fuel)%nat ->
    exists c', free_from fuel c0 a = Returns c' /\
      forall b, (In b (a :: addrs) -> c' !! b = None) /\
                (~ In b (a :: addrs) -> c' !! b = c0 !! b).
Proof.
  induction addrs as [|a' addrs IH]; intros keys a k c0 fuel H Hnd Hf;
    cbn in H; destruct H as (_ & nx & Ha & H).
  - destruct keys; cbn in H; [|tauto]. subst nx.
    exists (delete a c0). split; [destruct fuel; cbn; rewrite Ha; reflexivity|].
    intros b. split.
    + intros [->|[]]. apply lookup_delete_eq.
    + intros Hn. apply lookup_delete_ne. intros ->. apply Hn. left. reflexivity.
  - destruct keys as [|k' keys]; cbn in H; [tauto|].
    destruct H as (-> & nx' & Ha' & H).
    destruct fuel as [|fuel]; [cbn in Hf; lia|].
    apply List.NoDup_cons_iff in Hnd as [Hna Hnd].
    destruct (IH keys a' k' (delete a c0) fuel) as (c' & Hrun & Hc').
    + cbn. split; [reflexivity|]. exists nx'. split.
      * rewrite lookup_delete_ne; [exact Ha'|]. intros ->. apply Hna. left. reflexivity.
      * apply lseg_delete_other; [|exact H]. intros Hin. apply Hna. right. exact Hin.
    + exact Hnd.
    + cbn in Hf. lia.
    + exists c'. split; [cbn [free_from]; rewrite Ha; cbn [next]; exact Hrun|].
      intros b. destruct (Hc' b) as [Hc1 Hc2]. split.
      * intros [->|Hin]; [|exact (Hc1 Hin)].
        rewrite (Hc2 Hna). apply lookup_delete_eq.
      * intros Hn. rewrite Hc2 by (intros Hin; apply Hn; right; exact Hin).
        apply lookup_delete_ne. intros ->. apply Hn. left. reflexivity.
Qed.

(** X21. [Free_list] on a memory that holds a list frees every node of it
    once and leaves nothing allocated; it does not assign [head], so after
    freeing a list that was not empty [head] still points at the first node,
    now freed, [Is_empty] still returns 0 and a further [Member] reads freed
    memory. *)
Theorem Free_list_frees_all (m : memory) (addrs : list nat) (keys : list Z) :
  holds m addrs keys ->
  Free_list m = Returns (Memory ∅ (head_ptr m)) /\
  (keys <> [] ->
   Is_empty (Memory ∅ (head_ptr m)) = 0 /\
   forall value, Member_mem value (Memory ∅ (head_ptr m)) = Faults).
Proof.
  intros [Hl Hnd Hall]. pose proof Hl as Hl0. unfold Free_list, Is_empty.
  destruct addrs as [|a addrs], keys as [|k keys]; cbn in Hl; try tauto.
  - rewrite Hl. cbn. split; [|congruence].
    f_equal. destruct m as [c hd]. cbn in *. f_equal; [|exact Hl].
    apply map_empty. intros b.
    destruct (c !! b) eqn:Eb; [|reflexivity]. destruct (Hall b); eauto.
  - pose proof Hl as (Hhd & _). rewrite Hhd. cbn [Z.eqb].
    rewrite <- Hhd.
    assert (Hf : (length addrs <= size (cells m))%nat).
    { pose proof (distinct_le_size (cells m) (a :: addrs) Hnd
                    (fun b => lseg_allocated _ _ _ _ _ b Hl0)) as Hs. cbn in Hs. lia. }
    rewrite Hhd in Hl0.
    destruct (free_from_list addrs keys a k (cells m) _ Hl0 Hnd Hf) as (c' & Hrun & Hc').
    rewrite Hhd, Hrun.
    assert (c' = ∅).
    { apply map_empty. intros b. destruct (Hc' b) as [Hc1 Hc2].
      destruct (cells m !! b) eqn:Eb.
      - apply Hc1. apply Hall. eauto.
      - destruct (c' !! b) eqn:Eb'; [|reflexivity].
        destruct (In_dec Nat.eq_dec b (a :: addrs)) as [Hin|Hn];
          [specialize (Hc1 Hin); congruence|].
        specialize (Hc2 Hn). congruence. }
    subst c'. split; [reflexivity|]. intros _. split; [reflexivity|].
    intros value. reflexivity.
Qed.

Lemma sample_memory_holds : holds sample_memory [1; 2]%nat [3; 5].
Proof.
  constructor.
  - cbn. split; [reflexivity|]. exists (Some 2%nat). split; [reflexivity|].
    split; [reflexivity|]. exists None. split; reflexivity.
  - repeat constructor; cbn; lia.
  - intros a. unfold sample_memory. cbn [cells].
    rewrite !lookup_insert_is_Some, lookup_empty, <- not_eq_None_Some. cbn. tauto.
Qed.

Lemma Insert_mem_refines_witness :
  exists m' addrs',
    Insert_mem 4 (Some 3%nat) sample_memory = Returns (fst (Insert 4 [3; 5]), m') /\
    holds m' addrs' (snd (Insert 4 [3; 5])) /\
    (fst (Insert 4 [3; 5]) = 0 -> m' = sample_memory /\ addrs' = [1; 2]%nat) /\
    (fst (Insert 4 [3; 5]) = 1 ->
     forall a, is_Some (cells m' !! a) <-> a = 3%nat \/ is_Some (cells sample_memory !! a)).
Proof.
  apply (Insert_mem_refines 4 3%nat sample_memory [1; 2]%nat [3; 5]).
  - exact sample_memory_holds.
  - vm_compute. reflexivity.
Defined.

Lemma Insert_mem_out_of_memory_witness :
  Insert_mem 4 None sample_memory = Faults /\
  Insert_mem 5 None sample_memory = Returns (0, sample_memory).
Proof.
  split.
  - exact (Insert_mem_out_of_memory 4 sample_memory [1; 2]%nat [3; 5] sample_memory_holds).
  - exact (Insert_mem_out_of_memory 5 sample_memory [1; 2]%nat [3; 5] sample_memory_holds).
Defined.

Lemma Delete_mem_refines_witness :
  exists m' addrs',
    Delete_mem 5 sample_memory = Returns (fst (Delete 5 [3; 5]), m') /\
    holds m' addrs' (snd (Delete 5 [3; 5])) /\
    (fst (Delete 5 [3; 5]) = 0 -> m' = sample_memory /\ addrs' = [1; 2]%nat) /\
    (fst (Delete 5 [3; 5]) = 1 ->
     exists a, In a [1; 2]%nat /\
       forall b, is_Some (cells m' !! b) <-> is_Some (cells sample_memory !! b) /\ b <> a).
Proof.
  apply (Delete_mem_refines 5 sample_memory [1; 2]%nat [3; 5]).
  exact sample_memory_holds.
Defined.

Lemma readers_mem_refine_witness :
  Member_mem 5 sample_memory = Returns 1 /\ Print sample_memory = Returns [3; 5].
Proof.
  destruct (readers_mem_refine 5 sample_memory [1; 2]%nat [3; 5] sample_memory_holds)
    as (Hmem & Hprint & _).
  split; [exact Hmem|exact Hprint].
Defined.

Lemma Free_list_frees_all_witness :
  Free_list sample_memory = Returns (Memory ∅ (Some 1%nat)) /\
  Member_mem 3 (Memory ∅ (Some 1%nat)) = Faults.
Proof.
  destruct (Free_list_frees_all sample_memory [1; 2]%nat [3; 5] sample_memory_holds)
    as (Hfree & Hlater).
  split; [exact Hfree|].
  apply Hlater. discriminate.
Defined.

(** ** The Mandelbrot test *)

Lemma dadd_nan_r (v : double) : dadd v S754_nan = S754_nan.
Proof. destruct v; reflexivity. Qed.

Lemma square_after_zero (v : double) :
  dmul (dadd double_zero v) (dadd double_zero v) = dmul v v.
Proof. destruct v as [[|]|[|]| |s m e]; reflexivity. Qed.

(** The first pass finds z = 0 and goes on with z = 0 + c. *)
Lemma mandelbrot_first_pass (n : nat) (real img : double) :
  mandelbrot_loop (S n) real img double_zero double_zero =
  mandelbrot_loop n real img (dadd double_zero real) (dadd double_zero img).
Proof.
  cbn [mandelbrot_loop].
  change (dmul double_zero double_zero) with double_zero.
  change (dadd double_zero double_zero) with double_zero.
  change (dge double_zero double_four) with false. cbn iota.
  change (dsub double_zero double_zero) with double_zero.
  change (dmul double_two double_zero) with double_zero.
  change (dmul double_zero double_zero) with double_zero.
  reflexivity.
Qed.

Lemma MAX_ITERATIONS_passes : MAX_ITERATIONS = S (S 998).
Proof. reflexivity. Qed.

Lemma escapes_in_two (n : nat) (real img : double) :
  dge (dadd (dmul real real) (dmul img img)) double_four = true ->
  mandelbrot_loop (S (S n)) real img double_zero double_zero = 0.
Proof.
  intros H. rewrite mandelbrot_first_pass. cbn [mandelbrot_loop].
  rewrite !square_after_zero, H. reflexivity.
Qed.

(** X22. The first pass of [mandelbrotContains] never leaves, since z is 0,
    and the second tests the argument itself: when [real*real + img*img >= 4.0]
    holds in double arithmetic the function returns 0, whatever the
    arguments are. *)
Theorem mandelbrot_escapes_at_once (real img : double) :
  dge (dadd (dmul real real) (dmul img img)) double_four = true ->
  mandelbrotContains real img = 0.
Proof.
  intros H. unfold mandelbrotContains. rewrite MAX_ITERATIONS_passes.
  apply escapes_in_two. exact H.
Qed.

Lemma mandelbrot_escapes_at_once_witness :
  mandelbrotContains double_two double_zero = 0.
Proof.
  apply (mandelbrot_escapes_at_once double_two double_zero).
  vm_compute. reflexivity.
Defined.

Lemma nan_never_leaves (real img : double) (n : nat) :
  forall z_real z_img,
    (real = S754_nan /\ z_real = S754_nan) \/ (img = S754_nan /\ z_img = S754_nan) ->
    mandelbrot_loop n real img z_real z_img = 1.
Proof.
  induction n as [|n IH]; intros z_real z_img H; [reflexivity|].
  cbn [mandelbrot_loop].
  destruct H as [[-> ->]|[-> ->]].
  - change (dmul S754_nan S754_nan) with S754_nan.
    change (dadd S754_nan (dmul z_img z_img)) with S754_nan.
    change (dge S754_nan double_four) with false. cbn iota.
    apply IH. left. split; [reflexivity|apply dadd_nan_r].
  - change (dmul S754_nan S754_nan) with S754_nan.
    rewrite dadd_nan_r.
    change (dge S754_nan double_four) with false. cbn iota.
    apply IH. right. split; [reflexivity|apply dadd_nan_r].
Qed.

(** X23. A NaN argument is reported as contained: the comparison with 4.0
    is then false in each of the MAX_ITERATIONS passes, so
    [mandelbrotContains] returns 1. *)
Theorem mandelbrot_nan_contained (real img : double) :
  real = S754_nan \/ img = S754_nan -> mandelbrotContains real img = 1.
Proof.
  intros H. unfold mandelbrotContains. rewrite MAX_ITERATIONS_passes.
  rewrite mandelbrot_first_pass.
  apply nan_never_leaves.
  destruct H as [->| ->]; [left|right]; split; reflexivity.
Qed.

Lemma mandelbrot_nan_contained_witness :
  mandelbrotContains S754_nan double_two = 1.
Proof.
  apply (mandelbrot_nan_contained S754_nan double_two).
  left. reflexivity.
Defined.

(** ** The parallel region *)

Lemma team_split (ts : list place) (t : nat) (s : place) :
  ts !! t = Some s ->
  exists l1 l2, ts = l1 ++ s :: l2 /\ forall s', <[t := s']> ts = l1 ++ s' :: l2.
Proof.
  intros H. exists (take t ts), (drop (S t) ts). split.
  - symmetry. apply take_drop_middle. exact H.
  - intros s'. apply insert_take_drop. apply (lookup_lt_Some _ _ _ H).
Qed.

Lemma departed_middle (l1 l2 : list place) (s : place) :
  departed (l1 ++ s :: l2) =
  (departed l1 + match s with Out_of_loop => 1 | _ => 0 end + departed l2)%nat.
Proof.
  induction l1 as [|a l1 IH].
  - destruct s; cbn [app departed]; lia.
  - destruct a; cbn [app departed]; rewrite IH; lia.
Qed.

Lemma owed_middle (l1 l2 : list place) (s : place) :
  owed (l1 ++ s :: l2) =
  owed l1 ++ match owes s with Some i => i :: owed l2 | None => owed l2 end.
Proof.
  unfold owed. rewrite omap_app. f_equal.
Qed.

Lemma In_middle {A : Type} (l1 l2 : list A) (a b : A) :
  In b (l1 ++ a :: l2) <-> b = a \/ In b (l1 ++ l2).
Proof.
  rewrite !in_app_iff. cbn. split.
  - intros [H|[H|H]]; auto.
  - intros [H|[H|H]]; auto.
Qed.

Lemma NoDup_middle {A : Type} (l1 l2 : list A) (a : A) :
  List.NoDup (l1 ++ l2) -> ~ In a (l1 ++ l2) -> List.NoDup (l1 ++ a :: l2).
Proof.
  induction l1 as [|b l1 IH]; cbn; intros Hnd Hn.
  - constructor; assumption.
  - apply List.NoDup_cons_iff in Hnd as [Hb Hnd]. constructor.
    + rewrite In_middle. intros [->|H]; [apply Hn; left; reflexivity|contradiction].
    + apply IH; [exact Hnd|]. intros H. apply Hn. right. exact H.
Qed.

Lemma long_wrap_id (z : Z) :
  -9223372036854775808 <= z <= 9223372036854775807 -> long_wrap z = z.
Proof.
  intros H. unfold long_wrap.
  rewrite Z.mod_small; lia.
Qed.

Lemma departed_le_length (ts : list place) : (departed ts <= length ts)%nat.
Proof.
  induction ts as [|[| | |] ts IH]; cbn; lia.
Qed.

Lemma move_collecting (npoints : Z) (e : turn) (h : region) :
  0 < npoints <= INT_MAX -> Z.of_nat (length (team h)) <= INT_MAX ->
  collecting npoints h ->
  exists h', move npoints e h = Some h' /\ collecting npoints h' /\
             length (team h') = length (team h).
Proof.
  intros Hn Hk Hc. destruct e as [t r1 r2]. unfold move.
  destruct (team h !! t) as [s|] eqn:Et; [|exists h; auto].
  destruct (team_split _ _ _ Et) as (l1 & l2 & Hts & Hins).
  destruct h as [c pts ts]. cbn [count points team] in *.
  assert (Hlen : forall s', length (<[t := s']> ts) = length ts)
    by (intros s'; apply length_insert).
  pose proof (departed_le_length ts) as Hdl.
  destruct Hc as [Hlength Hcount Hleft Howed Hdistinct Hdone Hwritten Hcarried].
  cbn [count points team] in *. clear Et. subst ts.
  rewrite departed_middle in Hcount, Hdl. rewrite owed_middle in Howed, Hdistinct, Hdone.
  rewrite length_app in Hk, Hdl. cbn [length] in Hk, Hdl.
  destruct s as [|p|i p|]; cbn [owes] in *.
  - (* the atomic read *)
    destruct (Z.geb_spec c npoints) as [Hge|Hlt].
    + eexists. split; [reflexivity|]. split; [|cbn; apply Hlen].
      rewrite Hins. constructor; cbn [count points team].
      * exact Hlength.
      * rewrite departed_middle. lia.
      * intros _. exact Hge.
      * rewrite owed_middle. exact Howed.
      * rewrite owed_middle. exact Hdistinct.
      * rewrite owed_middle. exact Hdone.
      * exact Hwritten.
      * intros s p Hs Hp. apply In_middle in Hs as [->|Hs]; [discriminate|].
        apply (Hcarried s p); [|exact Hp]. apply In_middle. right. exact Hs.
    + destruct (Z.eqb_spec
                  (mandelbrotContains
                     (x (Build_Point (coordinate r1 MIN_X MAX_X) (coordinate r2 MIN_Y MAX_Y)))
                     (y (Build_Point (coordinate r1 MIN_X MAX_X) (coordinate r2 MIN_Y MAX_Y))))
                  0) as [Hz|Hnz].
      * eexists. split; [reflexivity|]. split; [|reflexivity].
        constructor; cbn [count points team];
          rewrite ?departed_middle, ?owed_middle; cbn [owes]; assumption.
      * eexists. split; [reflexivity|]. split; [|cbn; apply Hlen].
        rewrite Hins. constructor; cbn [count points team].
        -- exact Hlength.
        -- rewrite departed_middle. exact Hcount.
        -- intros H. apply Hleft. apply In_middle in H as [H|H]; [discriminate|].
           apply In_middle. right. exact H.
        -- rewrite owed_middle. exact Howed.
        -- rewrite owed_middle. exact Hdistinct.
        -- rewrite owed_middle. exact Hdone.
        -- exact Hwritten.
        -- intros s p Hs Hp. apply In_middle in Hs as [->|Hs].
           ++ injection Hp as <-. exact Hnz.
           ++ apply (Hcarried s p); [|exact Hp]. apply In_middle. right. exact Hs.
  - (* the atomic capture *)
    assert (Hwrap : long_wrap (c + 1) = c + 1).
    { apply long_wrap_id. unfold INT_MAX in *. lia. }
    rewrite Hwrap.
    assert (Hp : contained p).
    { apply (Hcarried (At_capture p) p); [|reflexivity]. apply In_middle. left. reflexivity. }
    eexists. split; [reflexivity|]. split; [|cbn; apply Hlen].
    rewrite Hins. destruct (Z.ltb_spec c npoints) as [Hlt|Hge].
    + assert (Hfresh : ~ In c (owed l1 ++ owed l2)).
      { intros H. apply Howed in H. lia. }
      constructor; cbn [count points team].
      * exact Hlength.
      * rewrite departed_middle. lia.
      * intros H. apply In_middle in H as [H|H]; [discriminate|].
        assert (npoints <= c); [|lia]. apply Hleft. apply In_middle. right. exact H.
      * rewrite owed_middle. cbn [owes].
        intros i Hi. apply In_middle in Hi as [->|Hi].
        -- split; [lia|].
           destruct (pts !! Z.to_nat c) as [[q|]|] eqn:Eq.
           ++ apply Hwritten in Eq. lia.
           ++ reflexivity.
           ++ apply lookup_ge_None in Eq. lia.
        -- destruct (Howed i Hi) as [Hb Hq]. split; [lia|exact Hq].
      * rewrite owed_middle. cbn [owes].
        apply NoDup_middle; assumption.
      * rewrite owed_middle. cbn [owes].
        intros i Hi. destruct (Z.eq_dec i c) as [->|Hne].
        -- left. apply In_middle. left. reflexivity.
        -- destruct (Hdone i ltac:(lia)) as [H|H]; [left|right; exact H].
           apply In_middle. right. exact H.
      * intros n q Hq. destruct (Hwritten n q Hq). split; [assumption|lia].
      * intros s q Hs Hq. apply In_middle in Hs as [->|Hs].
        -- injection Hq as <-. exact Hp.
        -- apply (Hcarried s q); [|exact Hq]. apply In_middle. right. exact Hs.
    + constructor; cbn [count points team].
      * exact Hlength.
      * rewrite departed_middle. lia.
      * intros _. lia.
      * rewrite owed_middle. cbn [owes].
        intros i Hi. destruct (Howed i Hi) as [Hb Hq]. split; [lia|exact Hq].
      * rewrite owed_middle. exact Hdistinct.
      * rewrite owed_middle. cbn [owes].
        intros i Hi. apply Hdone. lia.
      * intros n q Hq. destruct (Hwritten n q Hq). split; [assumption|lia].
      * intros s q Hs Hq. apply In_middle in Hs as [->|Hs]; [discriminate|].
        apply (Hcarried s q); [|exact Hq]. apply In_middle. right. exact Hs.
  - (* the stores *)
    assert (Hi : In i (owed l1 ++ i :: owed l2)) by (apply In_middle; left; reflexivity).
    destruct (Howed i Hi) as [Hb Hq].
    pose proof (lookup_lt_Some _ _ _ Hq) as Hin.
    assert (Hp : contained p).
    { apply (Hcarried (At_store i p) p); [|reflexivity]. apply In_middle. left. reflexivity. }
    replace (0 <=? i) with true by (symmetry; apply Z.leb_le; lia).
    replace (i <? Z.of_nat (length pts)) with true by (symmetry; apply Z.ltb_lt; lia).
    cbn [andb].
    eexists. split; [reflexivity|]. split; [|cbn; apply Hlen].
    rewrite Hins.
    assert (Hgone : ~ In i (owed l1 ++ owed l2)) by (apply List.NoDup_remove_2; exact Hdistinct).
    assert (Hother : forall j, 0 <= j -> j <> i ->
                     <[Z.to_nat i := Some p]> pts !! Z.to_nat j = pts !! Z.to_nat j).
    { intros j Hj Hne. apply list_lookup_insert_ne. lia. }
    constructor; cbn [count points team].
    + rewrite length_insert. exact Hlength.
    + rewrite departed_middle. exact Hcount.
    + intros H. apply Hleft. apply In_middle in H as [H|H]; [discriminate|].
      apply In_middle. right. exact H.
    + rewrite owed_middle. cbn [owes].
      intros j Hj. assert (Hne : j <> i) by (intros ->; contradiction).
      destruct (Howed j) as [Hbj Hqj]; [apply In_middle; right; exact Hj|].
      split; [exact Hbj|]. rewrite Hother; [exact Hqj|lia|exact Hne].
    + rewrite owed_middle. cbn [owes].
      apply List.NoDup_remove_1 in Hdistinct. exact Hdistinct.
    + rewrite owed_middle. cbn [owes].
      intros j Hj. destruct (Z.eq_dec j i) as [->|Hne].
      * right. exists p. apply list_lookup_insert_eq. exact Hin.
      * destruct (Hdone j Hj) as [H|[q H]].
        -- apply In_middle in H as [H|H]; [contradiction|left; exact H].
        -- right. exists q. rewrite Hother; [exact H|lia|exact Hne].
    + intros n q Hnq. destruct (Nat.eq_dec n (Z.to_nat i)) as [->|Hne].
      * rewrite list_lookup_insert_eq in Hnq by exact Hin. injection Hnq as <-.
        split; [exact Hp|lia].
      * rewrite list_lookup_insert_ne in Hnq by congruence. exact (Hwritten n q Hnq).
    + intros s q Hs Hq'. apply In_middle in Hs as [->|Hs]; [discriminate|].
      apply (Hcarried s q); [|exact Hq']. apply In_middle. right. exact Hs.
  - (* out of the loop *)
    eexists. split; [reflexivity|]. split; [|reflexivity].
    constructor; cbn [count points team];
      rewrite ?departed_middle, ?owed_middle; cbn [owes]; assumption.
Qed.

Lemma owed_replicate (k : nat) : owed (replicate k At_read) = [].
Proof. induction k as [|k IH]; [reflexivity|exact IH]. Qed.

Lemma departed_replicate (k : nat) : departed (replicate k At_read) = 0%nat.
Proof. induction k as [|k IH]; [reflexivity|exact IH]. Qed.

Lemma enter_collecting (npoints : Z) (k : nat) :
  0 < npoints -> collecting npoints (enter npoints k).
Proof.
  intros Hn. constructor; cbn [enter count points team].
  - apply length_replicate.
  - rewrite departed_replicate. lia.
  - intros H. apply list_elem_of_In, elem_of_replicate_inv in H. discriminate.
  - rewrite owed_replicate. intros i [].
  - rewrite owed_replicate. constructor.
  - intros i Hi. lia.
  - intros n p H. apply lookup_replicate in H as [H _]. discriminate.
  - intros s p H. apply list_elem_of_In, elem_of_replicate_inv in H; subst s. discriminate.
Qed.

Lemma moves_collecting (npoints : Z) (es : list turn) :
  0 < npoints <= INT_MAX ->
  forall h, Z.of_nat (length (team h)) <= INT_MAX -> collecting npoints h ->
  exists h', moves npoints es h = Some h' /\ collecting npoints h' /\
             length (team h') = length (team h).
Proof.
  intros Hn. induction es as [|e es IH]; intros h Hk Hc.
  - exists h. auto.
  - destruct (move_collecting npoints e h Hn Hk Hc) as (h1 & Hm & Hc1 & Hl1).
    destruct (IH h1 ltac:(lia) Hc1) as (h' & Hms & Hc' & Hl').
    exists h'. cbn [moves]. rewrite Hm. split; [exact Hms|]. split; [exact Hc'|lia].
Qed.

(** X24. The parallel region, for a team of any size and any interleaving
    of its threads' accesses to [count] and [points], with any results of
    [rand]: no store falls outside the array, [count] stays between 0 and
    [npoints] plus the team size (so the [long] cannot overflow), no two
    threads are about to store to the same element, and no thread is about
    to store to an element that has been stored to. *)
Theorem region_stores_once (npoints : Z) (k : nat) (es : list turn) :
  0 < npoints <= INT_MAX -> Z.of_nat k <= INT_MAX ->
  exists h, moves npoints es (enter npoints k) = Some h /\
    0 <= count h <= npoints + Z.of_nat k /\
    List.NoDup (owed (team h)) /\
    forall i, In i (owed (team h)) ->
              0 <= i < npoints /\ points h !! Z.to_nat i = Some None.
Proof.
  intros Hn Hk.
  destruct (moves_collecting npoints es Hn (enter npoints k)) as (h & Hm & Hc & Hl).
  - cbn. rewrite length_replicate. exact Hk.
  - apply enter_collecting. lia.
  - exists h. split; [exact Hm|].
    cbn in Hl. rewrite length_replicate in Hl.
    pose proof (departed_le_length (team h)) as Hd.
    destruct Hc as [_ Hcount _ Howed Hdistinct _ _ _].
    split; [lia|]. split; [exact Hdistinct|].
    intros i Hi. destruct (Howed i Hi) as [Hb Hq]. split; [lia|exact Hq].
Qed.

Lemma region_stores_once_witness :
  exists h, moves 2 sample_turns (enter 2 3) = Some h /\
    0 <= count h <= 2 + Z.of_nat 3 /\
    List.NoDup (owed (team h)) /\
    forall i, In i (owed (team h)) -> 0 <= i < 2 /\ points h !! Z.to_nat i = Some None.
Proof.
  apply (region_stores_once 2 3 sample_turns); unfold INT_MAX; lia.
Defined.

(** X25. The end of the parallel region.  Every point found in [points] at
    any moment passed [mandelbrotContains]; and once every thread of a team
    of at least one has left the loop, [count] has reached [npoints] and
    each of the [npoints] elements has been stored to. *)
Theorem region_end_filled (npoints : Z) (k : nat) (es : list turn) (h : region) :
  0 < npoints <= INT_MAX -> (0 < k)%nat -> Z.of_nat k <= INT_MAX ->
  moves npoints es (enter npoints k) = Some h ->
  (forall n p, points h !! n = Some (Some p) -> mandelbrotContains (x p) (y p) <> 0) /\
  (Forall (fun s => s = Out_of_loop) (team h) ->
   npoints <= count h /\ length (points h) = Z.to_nat npoints /\
   forall n, (n < Z.to_nat npoints)%nat -> exists p, points h !! n = Some (Some p)).
Proof.
  intros Hn Hpos Hk Hm.
  destruct (moves_collecting npoints es Hn (enter npoints k)) as (h' & Hm' & Hc & Hl).
  - cbn. rewrite length_replicate. exact Hk.
  - apply enter_collecting. lia.
  - rewrite Hm in Hm'. injection Hm' as <-.
    cbn in Hl. rewrite length_replicate in Hl.
    destruct Hc as [Hlength _ Hleft _ _ Hdone Hwritten _].
    split; [intros n p H; exact (proj1 (Hwritten n p H))|].
    intros Hall.
    assert (Hout : In Out_of_loop (team h)).
    { destruct (team h) as [|s ts]; [cbn in Hl; lia|].
      apply Forall_cons in Hall as [-> _]. left. reflexivity. }
    assert (Hnone : owed (team h) = []).
    { clear -Hall. induction Hall as [|s ts -> _ IH]; [reflexivity|exact IH]. }
    specialize (Hleft Hout). split; [exact Hleft|]. split; [exact Hlength|].
    intros n Hlt. destruct (Hdone (Z.of_nat n) ltac:(lia)) as [H|[p H]].
    + rewrite Hnone in H. destruct H.
    + exists p. rewrite Nat2Z.id in H. exact H.
Qed.

Lemma region_end_filled_witness :
  (forall n p, points sample_end !! n = Some (Some p) ->
               mandelbrotContains (x p) (y p) <> 0) /\
  (Forall (fun s => s = Out_of_loop) (team sample_end) ->
   1 <= count sample_end /\ length (points sample_end) = Z.to_nat 1 /\
   forall n, (n < Z.to_nat 1)%nat -> exists p, points sample_end !! n = Some (Some p)).
Proof.
  apply (region_end_filled 1 1 sample_turns sample_end).
  - unfold INT_MAX. lia.
  - lia.
  - unfold INT_MAX. lia.
  - vm_compute. reflexivity.
Defined.

(** The premise of the second part can be met: the sample run ends with its
    one thread out of the loop. *)
Example sample_run_ends : team sample_end = [Out_of_loop] /\ count sample_end = 1.
Proof. split; reflexivity. Qed.
